(** * llvm-cov JSON coverage export (CoverageExporterJson.cpp)

    A shallow embedding of the JSON exporter of llvm-cov and the proofs of
    its specification.  The file follows the source top-down: the JSON
    values the exporter builds, the coverage records it reads, the schema
    renderers, the per-file renderer, the thread-pool fan-out of
    [renderFiles], and [renderRoot] with its sort and its envelope. *)

From Stdlib Require Import ZArith NArith List Ascii SpecFloat.
From stdpp Require Import base option list gmap strings pretty fin_maps sorting.

Set Warnings "-register-all".
Set Default Proof Using "Type".

Local Open Scope string_scope.
Local Open Scope Z_scope.

(** ** Machine integers

    The exporter runs on an LP64 host: [unsigned] has 32 bits, [size_t] and
    [uint64_t] have 64, and every integer stored in a JSON value is an
    [int64_t].  Unsigned quantities are values of [N]; the conversions of
    the source are written out with their wrap-around. *)

Module Int.

Definition two32 : N := 4294967296%N.
Definition two63 : Z := 9223372036854775808.
Definition two64 : Z := 18446744073709551616.

(** [int64_t(x)] for a 64-bit unsigned [x]. *)
Definition to_int64 (x : N) : Z :=
  let z := Z.of_N x mod two64 in
  if z <? two63 then z else z - two64.

(** [unsigned(x)] for a [size_t] [x]; also the implicit narrowing of
    [unsigned E = SourceFiles.size()]. *)
Definition to_unsigned (x : N) : N := (x mod two32)%N.

(** [a - b] computed in [size_t]. *)
Definition size_t_sub (a b : N) : N :=
  Z.to_N ((Z.of_N a - Z.of_N b) mod two64).

(** [x.size()] of a vector or an ArrayRef. *)
Definition size {A} (l : list A) : N := N.of_nat (length l).

End Int.

(** ** JSON values *)

(** An IEEE 754 binary64 value. *)
Definition double : Type := spec_float.

(** Modelled from the spec: llvm::json::Value (llvm/Support/JSON.h is not
    among the sources).  A value is null, a boolean, an [int64_t], a double,
    a string, an array or an object; an object is a map from keys to values,
    so a key occurs at most once and the order of insertion is not
    observable.  A string value holds the bytes it was built from (the
    library expects valid UTF-8). *)
Inductive json : Type :=
  | JNull
  | JBool (b : bool)
  | JInt (i : Z)
  | JDouble (d : double)
  | JString (s : string)
  | JArray (a : list json)
  | JObject (o : gmap string json).

Module Json.

(** [json::Object(std::initializer_list<KV>)]: the properties are entered
    in order with [try_emplace], so the first of two equal keys stays. *)
Definition Object (Properties : list (string * json)) : gmap string json :=
  list_to_map Properties.

(** [O[K] = V] *)
Definition set (K : string) (V : json) (O : gmap string json)
  : gmap string json := <[K := V]> O.

(** [V.getAsObject()]: the null pointer for a value that is no object. *)
Definition getAsObject (V : json) : option (gmap string json) :=
  match V with JObject o => Some o | _ => None end.

(** [O.getString(K)]: an empty Optional unless [K] holds a string. *)
Definition getString (O : gmap string json) (K : string) : option string :=
  match O !! K with Some (JString s) => Some s | _ => None end.

(** [json::Array(Strings)] for a vector of strings. *)
Definition strings (l : list string) : json := JArray (JString <$> l).

(** A value built from an [unsigned]: stored as the same [int64_t]. *)
Definition of_unsigned (x : N) : json := JInt (Z.of_N x).

End Json.

(** ** Coverage records

    The records of llvm/ProfileData/Coverage/CoverageMapping.h and of
    CoverageSummaryInfo.h, with the fields the renderers read; the headers
    are not among the sources.  Lines, columns and file ids are [unsigned];
    execution counts are [uint64_t]; the counts of a summary block are
    [size_t]; a percentage is the double its accessor returns.  The
    renderers below convert the 64-bit counts with [int64_t(...)], as the
    source does. *)

(** Modelled from the spec: Segment, a point of a file where the coverage
    state changes. *)
Record CoverageSegment := {
  Line : N;
  Col : N;
  Count : N;
  HasCount : bool;
  IsRegionEntry : bool
}.

(** Modelled from the spec: the kind of a region, rendered as its integer
    tag. *)
Inductive RegionKind := CodeRegion | ExpansionRegion | SkippedRegion | GapRegion.

Definition RegionKind_value (k : RegionKind) : Z :=
  match k with
  | CodeRegion => 0
  | ExpansionRegion => 1
  | SkippedRegion => 2
  | GapRegion => 3
  end.

(** Modelled from the spec: CountedRegion, a source range with its
    execution count. *)
Record CountedRegion := {
  LineStart : N;
  ColumnStart : N;
  LineEnd : N;
  ColumnEnd : N;
  ExecutionCount : N;
  FileID : N;
  ExpandedFileID : N;
  Kind : RegionKind
}.

Module FunctionRecord.
(** Modelled from the spec: FunctionRecord. *)
Record t := {
  Name : string;
  Filenames : list string;
  CountedRegions : list CountedRegion;
  ExecutionCount : N
}.
End FunctionRecord.

Module ExpansionRecord.
(** Modelled from the spec: ExpansionRecord, the region of an expansion
    site with the function record it expands to. *)
Record t := {
  Region : CountedRegion;
  Function : FunctionRecord.t
}.
End ExpansionRecord.

Module CoverageData.
(** Modelled from the spec: the coverage data of one file, as
    [coverageForFile] returns it; iterating it yields its segments. *)
Record t := {
  Segments : list CoverageSegment;
  getExpansions : list ExpansionRecord.t
}.
End CoverageData.

Module CoverageMapping.
(** Modelled from the spec: the mapping provider, by its three queries. *)
Record t := {
  getUniqueSourceFiles : list string;
  getCoverageForFile : string → CoverageData.t;
  getCoveredFunctions : list FunctionRecord.t
}.
End CoverageMapping.

Module LineCoverageInfo.
(** Modelled from the spec: the lines block of a summary, by what its
    accessors return. *)
Record t := {
  getNumLines : N;
  getCovered : N;
  getPercentCovered : double
}.
Definition zero : t := Build_t 0 0 (S754_zero false).
End LineCoverageInfo.

Module FunctionCoverageInfo.
(** Modelled from the spec: the functions and the instantiations block of a
    summary. *)
Record t := {
  getNumFunctions : N;
  getExecuted : N;
  getPercentCovered : double
}.
Definition zero : t := Build_t 0 0 (S754_zero false).
End FunctionCoverageInfo.

Module RegionCoverageInfo.
(** Modelled from the spec: the regions block of a summary. *)
Record t := {
  getNumRegions : N;
  getCovered : N;
  getPercentCovered : double
}.
Definition zero : t := Build_t 0 0 (S754_zero false).
End RegionCoverageInfo.

(** Modelled from the spec: FileCoverageSummary, four independent metric
    blocks. *)
Record FileCoverageSummary := {
  Name : string;
  RegionCoverage : RegionCoverageInfo.t;
  LineCoverage : LineCoverageInfo.t;
  FunctionCoverage : FunctionCoverageInfo.t;
  InstantiationCoverage : FunctionCoverageInfo.t
}.

(** [FileCoverageSummary(Name)] *)
Definition FileCoverageSummary_new (Name : string) : FileCoverageSummary :=
  {| Name := Name;
     RegionCoverage := RegionCoverageInfo.zero;
     LineCoverage := LineCoverageInfo.zero;
     FunctionCoverage := FunctionCoverageInfo.zero;
     InstantiationCoverage := FunctionCoverageInfo.zero |}.

(** Modelled from the spec: ExportOptions, the fields of
    CoverageViewOptions the exporter reads. *)
Record CoverageViewOptions := {
  ExportSummaryOnly : bool;
  SkipExpansions : bool;
  SkipFunctions : bool;
  NumThreads : N
}.

(** ** Schema renderers *)

Definition LLVM_COVERAGE_EXPORT_JSON_STR : string := "2.0.0".
Definition LLVM_COVERAGE_EXPORT_JSON_TYPE_STR : string :=
  "llvm.coverage.json.export".

Definition renderSegment (Segment : CoverageSegment) : json :=
  JArray [Json.of_unsigned (Line Segment); Json.of_unsigned (Col Segment);
          JInt (Int.to_int64 (Count Segment));
          JBool (HasCount Segment); JBool (IsRegionEntry Segment)].

Definition renderRegion (Region : CountedRegion) : json :=
  JArray [Json.of_unsigned (LineStart Region);
          Json.of_unsigned (ColumnStart Region);
          Json.of_unsigned (LineEnd Region);
          Json.of_unsigned (ColumnEnd Region);
          JInt (Int.to_int64 (ExecutionCount Region));
          Json.of_unsigned (FileID Region);
          Json.of_unsigned (ExpandedFileID Region);
          JInt (RegionKind_value (Kind Region))].

Definition renderRegions (Regions : list CountedRegion) : json :=
  JArray (renderRegion <$> Regions).

Definition renderExpansion (Expansion : ExpansionRecord.t)
  : gmap string json :=
  let F := ExpansionRecord.Function Expansion in
  Json.Object
    [("filenames", Json.strings (FunctionRecord.Filenames F));
     ("source_region", renderRegion (ExpansionRecord.Region Expansion));
     ("target_regions", renderRegions (FunctionRecord.CountedRegions F))].

Definition renderSummary (Summary : FileCoverageSummary)
  : gmap string json :=
  let L := LineCoverage Summary in
  let F := FunctionCoverage Summary in
  let I := InstantiationCoverage Summary in
  let R := RegionCoverage Summary in
  Json.Object
    [("lines",
      JObject (Json.Object
        [("count", JInt (Int.to_int64 (LineCoverageInfo.getNumLines L)));
         ("covered", JInt (Int.to_int64 (LineCoverageInfo.getCovered L)));
         ("percent", JDouble (LineCoverageInfo.getPercentCovered L))]));
     ("functions",
      JObject (Json.Object
        [("count",
          JInt (Int.to_int64 (FunctionCoverageInfo.getNumFunctions F)));
         ("covered", JInt (Int.to_int64 (FunctionCoverageInfo.getExecuted F)));
         ("percent", JDouble (FunctionCoverageInfo.getPercentCovered F))]));
     ("instantiations",
      JObject (Json.Object
        [("count",
          JInt (Int.to_int64 (FunctionCoverageInfo.getNumFunctions I)));
         ("covered", JInt (Int.to_int64 (FunctionCoverageInfo.getExecuted I)));
         ("percent", JDouble (FunctionCoverageInfo.getPercentCovered I))]));
     ("regions",
      JObject (Json.Object
        [("count", JInt (Int.to_int64 (RegionCoverageInfo.getNumRegions R)));
         ("covered", JInt (Int.to_int64 (RegionCoverageInfo.getCovered R)));
         ("notcovered",
          JInt (Int.to_int64
                  (Int.size_t_sub (RegionCoverageInfo.getNumRegions R)
                                  (RegionCoverageInfo.getCovered R))));
         ("percent", JDouble (RegionCoverageInfo.getPercentCovered R))]))].

Definition renderFileExpansions (FileCoverage : CoverageData.t)
    (FileReport : FileCoverageSummary) : json :=
  JArray ((λ Expansion, JObject (renderExpansion Expansion))
            <$> CoverageData.getExpansions FileCoverage).

Definition renderFileSegments (FileCoverage : CoverageData.t)
    (FileReport : FileCoverageSummary) : json :=
  JArray (renderSegment <$> CoverageData.Segments FileCoverage).

Definition renderFile (Coverage : CoverageMapping.t) (Filename : string)
    (FileReport : FileCoverageSummary) (Options : CoverageViewOptions)
  : gmap string json :=
  let File := Json.Object [("filename", JString Filename)] in
  let File :=
    if negb (ExportSummaryOnly Options) then
      let FileCoverage := CoverageMapping.getCoverageForFile Coverage Filename in
      let File :=
        Json.set "segments" (renderFileSegments FileCoverage FileReport) File in
      if negb (SkipExpansions Options) then
        Json.set "expansions" (renderFileExpansions FileCoverage FileReport)
                 File
      else File
    else File in
  Json.set "summary" (JObject (renderSummary FileReport)) File.

Definition renderFunctions (Functions : list FunctionRecord.t) : json :=
  JArray ((λ F,
            JObject (Json.Object
              [("name", JString (FunctionRecord.Name F));
               ("count", JInt (Int.to_int64 (FunctionRecord.ExecutionCount F)));
               ("regions", renderRegions (FunctionRecord.CountedRegions F));
               ("filenames", Json.strings (FunctionRecord.Filenames F))]))
            <$> Functions).

(** ** The parallel file renderer *)

(** The worker count of [renderFiles]; [hw] is what
    [llvm::heavyweight_hardware_concurrency()] returns. *)
Definition workerCount (hw : N) (Options : CoverageViewOptions)
    (SourceFiles : list string) : N :=
  let NumThreads := NumThreads Options in
  if (NumThreads =? 0)%N then
    N.max 1 (N.min hw (Int.to_unsigned (Int.size SourceFiles)))
  else NumThreads.

Module Pool.

(** The lambda handed to [Pool.async]: it holds the two references taken
    by the loop body. *)
Record Task := {
  SourceFile : string;
  FileReport : FileCoverageSummary
}.

(** A busy worker is inside [renderFile], or holds the rendered [File] and
    is about to take [FileArrayMutex]. *)
Inductive Worker :=
  | Rendering (T : Task)
  | Rendered (File : gmap string json).

(** Modelled from the spec: ThreadPool (llvm/Support/ThreadPool.h is not
    among the sources), together with what [renderFiles] shares with its
    tasks.  The pool has a fixed number of workers and a FIFO queue: [async]
    appends a task, an idle worker takes the front task and runs it, and
    [wait] returns once the queue is empty and no worker is busy. *)
Record State := {
  Idx : N;                    (* the loop counter I *)
  Tasks : list Task;          (* the pool's queue *)
  Active : list Worker;       (* the busy workers *)
  FileArray : list json
}.

(** The interleaving of the submitting loop and of the workers is the
    scheduler's choice.  [renderFile] only reads the mapping and the
    options, and a task pushes its file under [FileArrayMutex], so every
    parallel run is an interleaving of these events. *)
Inductive Event :=
  | Submit                    (* one iteration of the loop: Pool.async *)
  | Start                     (* an idle worker takes the front task *)
  | Render (w : nat)          (* worker w returns from renderFile *)
  | Push (w : nat).           (* worker w locks, pushes its File, unlocks *)

Definition init : State :=
  {| Idx := 0; Tasks := []; Active := []; FileArray := [] |}.

Section Run.
Variable Coverage : CoverageMapping.t.
Variables (SourceFiles : list string) (FileReports : list FileCoverageSummary).
Variable Options : CoverageViewOptions.
Variable NumThreads : N.

(** [unsigned E = SourceFiles.size()] *)
Definition E : N := Int.to_unsigned (Int.size SourceFiles).

Definition render (T : Task) : gmap string json :=
  renderFile Coverage (SourceFile T) (FileReport T) Options.

(** An event that is not enabled has no successor; neither has the loop
    body when [SourceFiles[I]] or [FileReports[I]] is out of range (the
    bounds assertion of ArrayRef). *)
Definition step (ev : Event) (s : State) : option State :=
  match ev with
  | Submit =>
      if (Idx s <? E)%N then
        SF ← SourceFiles !! N.to_nat (Idx s);
        FR ← FileReports !! N.to_nat (Idx s);
        Some {| Idx := Idx s + 1;
                Tasks := Tasks s ++ [Build_Task SF FR];
                Active := Active s;
                FileArray := FileArray s |}
      else None
  | Start =>
      match Tasks s with
      | T :: Queue =>
          if (N.of_nat (length (Active s)) <? NumThreads)%N then
            Some {| Idx := Idx s;
                    Tasks := Queue;
                    Active := Active s ++ [Rendering T];
                    FileArray := FileArray s |}
          else None
      | [] => None
      end
  | Render w =>
      match Active s !! w with
      | Some (Rendering T) =>
          Some {| Idx := Idx s;
                  Tasks := Tasks s;
                  Active := <[w := Rendered (render T)]> (Active s);
                  FileArray := FileArray s |}
      | _ => None
      end
  | Push w =>
      match Active s !! w with
      | Some (Rendered File) =>
          Some {| Idx := Idx s;
                  Tasks := Tasks s;
                  Active := delete w (Active s);
                  FileArray := FileArray s ++ [JObject File] |}
      | _ => None
      end
  end.

Fixpoint run (sched : list Event) (s : State) : option State :=
  match sched with
  | [] => Some s
  | ev :: sched => s' ← step ev s; run sched s'
  end.

(** The loop is over and [Pool.wait()] returns. *)
Definition wait_returns (s : State) : bool :=
  (Idx s =? E)%N && bool_decide (Tasks s = []) && bool_decide (Active s = []).

End Run.

(** The schedule of a pool that runs every task to its end before the
    next one is submitted. *)
Definition sequential (n : nat) : list Event :=
  mjoin (replicate n [Submit; Start; Render 0; Push 0]).

End Pool.

(** [renderFiles]: the files in the order in which the tasks pushed them,
    under the schedule [sched]; [None] when [sched] is not an execution of
    the pool up to the return of [Pool.wait()]. *)
Definition renderFiles (hw : N) (sched : list Pool.Event)
    (Coverage : CoverageMapping.t) (SourceFiles : list string)
    (FileReports : list FileCoverageSummary) (Options : CoverageViewOptions)
  : option (list json) :=
  let NumThreads := workerCount hw Options SourceFiles in
  s ← Pool.run Coverage SourceFiles FileReports Options NumThreads sched
        Pool.init;
  if Pool.wait_returns SourceFiles s then Some (Pool.FileArray s) else None.

(** ** The root exporter *)

(** Modelled from the spec: StringRef::compare (llvm/ADT/StringRef.h is not
    among the sources), the byte-wise comparison of two strings: negative,
    zero or positive as the first differing byte, or else the length,
    decides. *)
Fixpoint StringRef_compare (LHS RHS : string) : Z :=
  match LHS, RHS with
  | EmptyString, EmptyString => 0
  | EmptyString, String _ _ => -1
  | String _ _, EmptyString => 1
  | String a LHS, String b RHS =>
      if (N_of_ascii a <? N_of_ascii b)%N then -1
      else if (N_of_ascii b <? N_of_ascii a)%N then 1
      else StringRef_compare LHS RHS
  end.

(** The comparator handed to [std::sort]; [None] is a failed assertion (a
    value that is no object, or [getValue] on an empty Optional). *)
Definition compareFiles (A B : json) : option bool :=
  ObjA ← Json.getAsObject A;
  ObjB ← Json.getAsObject B;
  FilenameA ← Json.getString ObjA "filename";
  FilenameB ← Json.getString ObjB "filename";
  Some (StringRef_compare FilenameA FilenameB <? 0).

(** [std::sort] with a comparator that may fail: an insertion sort, one of
    the algorithms the standard allows ([std_sort_post_unique] below shows
    that on files with distinct names every allowed algorithm returns the
    same array). *)
Fixpoint insert_sorted {A} (comp : A → A → option bool) (x : A) (l : list A)
  : option (list A) :=
  match l with
  | [] => Some [x]
  | y :: l' =>
      b ← comp x y;
      if b : bool then Some (x :: y :: l')
      else l'' ← insert_sorted comp x l'; Some (y :: l'')
  end.

Fixpoint std_sort {A} (comp : A → A → option bool) (l : list A)
  : option (list A) :=
  match l with
  | [] => Some []
  | x :: l' => s ← std_sort comp l'; insert_sorted comp x s
  end.

(** Modelled from the spec: the summarizer
    ([CoverageReport::prepareFileReports], CoverageReport.cpp is not among
    the sources): from the mapping, the file list and the options it returns
    the per-file summaries and adds them up into [Totals]. *)
Definition Summarizer : Type :=
  CoverageMapping.t → FileCoverageSummary → list string →
  CoverageViewOptions → list FileCoverageSummary * FileCoverageSummary.

(** What the exporter runs in: the hardware concurrency the host reports,
    the summarizer, and the schedule the thread pool happens to follow. *)
Record Host := {
  heavyweight_hardware_concurrency : N;
  prepareFileReports : Summarizer;
  schedule : list Pool.Event
}.

(** The exporter object: the mapping, the options, and the documents
    written to the output stream [OS] so far. *)
Record CoverageExporterJson := {
  Coverage : CoverageMapping.t;
  Options : CoverageViewOptions;
  OS : list json
}.

(** The export object of [renderRoot], from the sorted files. *)
Definition renderExport (Coverage : CoverageMapping.t)
    (Options : CoverageViewOptions) (Files : list json)
    (Totals : FileCoverageSummary) : gmap string json :=
  let Export :=
    Json.Object [("files", JArray Files);
                 ("totals", JObject (renderSummary Totals))] in
  if negb (ExportSummaryOnly Options) && negb (SkipFunctions Options) then
    Json.set "functions"
             (renderFunctions (CoverageMapping.getCoveredFunctions Coverage))
             Export
  else Export.

Definition renderDocument (Export : gmap string json) : json :=
  let ExportArray := JArray [JObject Export] in
  JObject (Json.Object
    [("version", JString LLVM_COVERAGE_EXPORT_JSON_STR);
     ("type", JString LLVM_COVERAGE_EXPORT_JSON_TYPE_STR);
     ("data", ExportArray)]).

(** [CoverageExporterJson::renderRoot(ArrayRef<std::string>)]: the exporter
    after the document is written, [None] when the export aborts. *)
Definition renderRoot (host : Host) (this : CoverageExporterJson)
    (SourceFiles : list string) : option CoverageExporterJson :=
  let Totals := FileCoverageSummary_new "Totals" in
  let '(FileReports, Totals) :=
    prepareFileReports host (Coverage this) Totals SourceFiles (Options this) in
  Files ← renderFiles (heavyweight_hardware_concurrency host) (schedule host)
            (Coverage this) SourceFiles FileReports (Options this);
  Files ← std_sort compareFiles Files;
  let Export := renderExport (Coverage this) (Options this) Files Totals in
  Some {| Coverage := Coverage this;
          Options := Options this;
          OS := OS this ++ [renderDocument Export] |}.

(** [CoverageExporterJson::renderRoot(const CoverageFilters &)];
    [matchesFilename] is the filter's predicate. *)
Definition renderRoot_filtered (host : Host) (this : CoverageExporterJson)
    (matchesFilename : string → bool) : option CoverageExporterJson :=
  let SourceFiles :=
    filter (λ SF, negb (matchesFilename SF) = true)
           (CoverageMapping.getUniqueSourceFiles (Coverage this)) in
  renderRoot host this SourceFiles.

(** The options with another configured thread count. *)
Definition setNumThreads (n : N) (Options : CoverageViewOptions)
  : CoverageViewOptions :=
  {| ExportSummaryOnly := ExportSummaryOnly Options;
     SkipExpansions := SkipExpansions Options;
     SkipFunctions := SkipFunctions Options;
     NumThreads := n |}.

(** ** What the pool's executions are measured against *)

(** The rendering of the files one after the other, in the order of the
    list: what the loop of [renderFiles] yields without a pool. *)
Definition sequentialFiles (Coverage : CoverageMapping.t)
    (SourceFiles : list string) (FileReports : list FileCoverageSummary)
    (Options : CoverageViewOptions) : list json :=
  zip_with (λ SF FR, JObject (renderFile Coverage SF FR Options))
           SourceFiles FileReports.

Module PoolInv.

(** The file a busy worker will push. *)
Definition holds (Coverage : CoverageMapping.t) (Options : CoverageViewOptions)
    (W : Pool.Worker) : json :=
  match W with
  | Pool.Rendering T => JObject (Pool.render Coverage Options T)
  | Pool.Rendered File => JObject File
  end.

(** Every file rendered or still to render by a submitted task: the pushed
    ones, the ones the busy workers hold, and the ones of the queue. *)
Definition submitted (Coverage : CoverageMapping.t)
    (Options : CoverageViewOptions) (s : Pool.State) : list json :=
  Pool.FileArray s
  ++ (holds Coverage Options <$> Pool.Active s)
  ++ ((λ T, JObject (Pool.render Coverage Options T)) <$> Pool.Tasks s).

(** The invariant of an execution: the loop counter is within its bound,
    and the submitted tasks account for exactly the first [Idx] files. *)
Definition Inv (Coverage : CoverageMapping.t) (SourceFiles : list string)
    (FileReports : list FileCoverageSummary) (Options : CoverageViewOptions)
    (s : Pool.State) : Prop :=
  (Pool.Idx s ≤ Pool.E SourceFiles)%N
  ∧ (N.to_nat (Pool.Idx s)
     ≤ length (sequentialFiles Coverage SourceFiles FileReports Options))%nat
  ∧ submitted Coverage Options s
    ≡ₚ take (N.to_nat (Pool.Idx s))
         (sequentialFiles Coverage SourceFiles FileReports Options).

Definition worker_weight (W : Pool.Worker) : nat :=
  match W with Pool.Rendering _ => 2 | Pool.Rendered _ => 1 end.

(** The number of events an execution still has to make. *)
Definition weight (SourceFiles : list string) (s : Pool.State) : nat :=
  4 * (N.to_nat (Pool.E SourceFiles) - N.to_nat (Pool.Idx s))
  + 3 * length (Pool.Tasks s)
  + sum_list_with worker_weight (Pool.Active s).

End PoolInv.

(** ** Reading a document back

    The observations the properties below are stated with. *)

(** The [filename] of a file object, as the sort's comparator reads it. *)
Definition filenameOf (File : json) : option string :=
  Obj ← Json.getAsObject File; Json.getString Obj "filename".

(** The integer under [key] in the block [block] of a summary object. *)
Definition metric (Summary : gmap string json) (block key : string)
  : option Z :=
  match Summary !! block with
  | Some (JObject b) =>
      match b !! key with Some (JInt i) => Some i | _ => None end
  | _ => None
  end.

Module Doc.

(** The single export object of a document. *)
Definition export (doc : json) : option (gmap string json) :=
  match doc with
  | JObject d =>
      match d !! "data" with
      | Some (JArray [JObject e]) => Some e
      | _ => None
      end
  | _ => None
  end.

(** The [files] array of a document. *)
Definition files (doc : json) : option (list json) :=
  e ← export doc;
  match e !! "files" with Some (JArray fs) => Some fs | _ => None end.

End Doc.

(** Byte-wise strictly smaller. *)
Definition str_lt (a b : string) : Prop := StringRef_compare a b < 0.

(** [File] is an object with a string under [filename]. *)
Definition has_filename (File : json) : Prop := is_Some (filenameOf File).

(** The name the comparator reads in [File]. *)
Definition fname (File : json) : string := default "" (filenameOf File).

(** Strictly before, in the order of the comparator. *)
Definition file_lt (A B : json) : Prop := str_lt (fname A) (fname B).

#[global] Instance file_lt_dec : RelDecision file_lt :=
  λ A B, Z_lt_dec (StringRef_compare (fname A) (fname B)) 0.

(** The postcondition of [std::sort]: the result rearranges the input, and
    no element compares less than one that stands before it. *)
Definition sort_post {A} (comp : A → A → option bool) (l l' : list A) : Prop :=
  l' ≡ₚ l
  ∧ ∀ (i j : nat) x y, (i < j)%nat → l' !! i = Some x → l' !! j = Some y →
      comp y x = Some false.

(** Every count of a summary is below 2^63, so that [int64_t(...)] keeps
    its value. *)
Definition fits_int64 (Summary : FileCoverageSummary) : Prop :=
  let L := LineCoverage Summary in
  let F := FunctionCoverage Summary in
  let I := InstantiationCoverage Summary in
  let R := RegionCoverage Summary in
  Forall (λ x : N, Z.of_N x < Int.two63)
    [LineCoverageInfo.getNumLines L; LineCoverageInfo.getCovered L;
     FunctionCoverageInfo.getNumFunctions F; FunctionCoverageInfo.getExecuted F;
     FunctionCoverageInfo.getNumFunctions I; FunctionCoverageInfo.getExecuted I;
     RegionCoverageInfo.getNumRegions R; RegionCoverageInfo.getCovered R].

(** The invariant of the summarizer's values: covered ≤ count in every
    block. *)
Definition covered_le_count (Summary : FileCoverageSummary) : Prop :=
  let L := LineCoverage Summary in
  let F := FunctionCoverage Summary in
  let I := InstantiationCoverage Summary in
  let R := RegionCoverage Summary in
  (LineCoverageInfo.getCovered L ≤ LineCoverageInfo.getNumLines L)%N
  ∧ (FunctionCoverageInfo.getExecuted F
     ≤ FunctionCoverageInfo.getNumFunctions F)%N
  ∧ (FunctionCoverageInfo.getExecuted I
     ≤ FunctionCoverageInfo.getNumFunctions I)%N
  ∧ (RegionCoverageInfo.getCovered R ≤ RegionCoverageInfo.getNumRegions R)%N.

(** ** Sample inputs *)

Module Sample.

Definition segment : CoverageSegment :=
  {| Line := 10; Col := 1; Count := 5;
     HasCount := true; IsRegionEntry := true |}.

Definition mapping : CoverageMapping.t :=
  {| CoverageMapping.getUniqueSourceFiles := ["b.c"; "a.c"];
     CoverageMapping.getCoverageForFile := λ _,
       {| CoverageData.Segments := [segment];
          CoverageData.getExpansions := [] |};
     CoverageMapping.getCoveredFunctions := [] |}.

(** A summarizer that reports no coverage for any file. *)
Definition summarizer : Summarizer :=
  λ _ Totals SourceFiles _,
    (FileCoverageSummary_new <$> SourceFiles, Totals).

Definition options (n : N) : CoverageViewOptions :=
  {| ExportSummaryOnly := false; SkipExpansions := false;
     SkipFunctions := false; NumThreads := n |}.

Definition host (sched : list Pool.Event) : Host :=
  {| heavyweight_hardware_concurrency := 8;
     prepareFileReports := summarizer;
     schedule := sched |}.

Definition exporter (n : N) : CoverageExporterJson :=
  {| Coverage := mapping; Options := options n; OS := [] |}.

(** Two workers, the second task pushed first. *)
Definition crossed : list Pool.Event :=
  [Pool.Submit; Pool.Submit; Pool.Start; Pool.Start;
   Pool.Render 1; Pool.Push 1; Pool.Render 0; Pool.Push 0].

(** The exporter after the export of ["b.c"; "a.c"] under [crossed]. *)
Definition exported : CoverageExporterJson :=
  default (exporter 0) (renderRoot (host crossed) (exporter 0) ["b.c"; "a.c"]).

(** A summary at the edge of [int64_t]: 2^63 lines and regions, one of
    each covered. *)
Definition huge : FileCoverageSummary :=
  {| Name := "huge.c";
     RegionCoverage := RegionCoverageInfo.Build_t 9223372036854775808 1
                         (S754_zero false);
     LineCoverage := LineCoverageInfo.Build_t 9223372036854775808 1
                       (S754_zero false);
     FunctionCoverage := FunctionCoverageInfo.zero;
     InstantiationCoverage := FunctionCoverageInfo.zero |}.

Definition small : FileCoverageSummary :=
  {| Name := "small.c";
     RegionCoverage := RegionCoverageInfo.Build_t 7 3 (S754_zero false);
     LineCoverage := LineCoverageInfo.Build_t 20 12 (S754_zero false);
     FunctionCoverage := FunctionCoverageInfo.Build_t 2 1 (S754_zero false);
     InstantiationCoverage :=
       FunctionCoverageInfo.Build_t 2 2 (S754_zero false) |}.

(** 2^32 distinct file names: one more than an [unsigned] counts. *)
Definition manyFiles : list string :=
  (λ n : nat, pretty n) <$> seq 0 (N.to_nat Int.two32).

Definition manyReports : list FileCoverageSummary :=
  replicate (N.to_nat Int.two32) (FileCoverageSummary_new "").

End Sample.

(** ** Proof automation *)

(** Lookups in the objects the renderers build: the keys are literals. *)
Ltac obj_lookup :=
  unfold Json.set, Json.Object;
  repeat (rewrite ?list_to_map_cons, ?list_to_map_nil;
          first [ rewrite lookup_insert_eq
                | rewrite lookup_insert_ne by discriminate
                | rewrite lookup_empty ]).

(** ** Machine-integer facts *)

Lemma to_int64_small (x : N) : Z.of_N x < Int.two63 → Int.to_int64 x = Z.of_N x.
Proof.
  intros Hx. unfold Int.to_int64, Int.two64, Int.two63 in *.
  rewrite Z.mod_small by lia.
  destruct (Z.ltb_spec (Z.of_N x) 9223372036854775808); lia.
Qed.

Lemma size_t_sub_int64 (a b : N) :
  Z.of_N a < Int.two63 → Z.of_N b < Int.two63 →
  Int.to_int64 (Int.size_t_sub a b) = Z.of_N a - Z.of_N b.
Proof.
  intros Ha Hb. unfold Int.to_int64, Int.size_t_sub, Int.two64, Int.two63 in *.
  set (m := 18446744073709551616).
  assert (Hm : 0 ≤ (Z.of_N a - Z.of_N b) mod m < m) by (apply Z.mod_pos_bound; done).
  rewrite Z2N.id by lia. rewrite Z.mod_mod by done.
  destruct (Z.le_gt_cases 0 (Z.of_N a - Z.of_N b)) as [Hle|Hgt].
  - rewrite Z.mod_small by (unfold m; lia).
    destruct (Z.ltb_spec (Z.of_N a - Z.of_N b) 9223372036854775808); lia.
  - assert (Heq : (Z.of_N a - Z.of_N b) mod m = Z.of_N a - Z.of_N b + m).
    { symmetry. apply (Z.mod_unique _ _ (-1)); unfold m; lia. }
    rewrite Heq.
    destruct (Z.ltb_spec (Z.of_N a - Z.of_N b + m) 9223372036854775808);
      unfold m in *; lia.
Qed.

Lemma to_unsigned_small (x : N) : (x < Int.two32)%N → Int.to_unsigned x = x.
Proof. intros. unfold Int.to_unsigned. by apply N.mod_small. Qed.

Lemma manyFiles_size : Int.size Sample.manyFiles = Int.two32.
Proof.
  unfold Int.size, Sample.manyFiles.
  rewrite length_fmap, length_seq. apply N2Nat.id.
Qed.

Lemma manyReports_size : Int.size Sample.manyReports = Int.two32.
Proof.
  unfold Int.size, Sample.manyReports.
  rewrite length_replicate. apply N2Nat.id.
Qed.

Lemma manyFiles_NoDup : NoDup Sample.manyFiles.
Proof. apply (NoDup_fmap_2 _), NoDup_seq. Qed.

Lemma manyFiles_E : Pool.E Sample.manyFiles = 0%N.
Proof. unfold Pool.E. rewrite manyFiles_size. reflexivity. Qed.


(** ** The schema renderers *)

Lemma renderFile_filename Coverage Filename FileReport Options :
  renderFile Coverage Filename FileReport Options !! "filename"
  = Some (JString Filename).
Proof.
  unfold renderFile.
  destruct (ExportSummaryOnly Options), (SkipExpansions Options); simpl;
    by obj_lookup.
Qed.

Lemma renderFile_summary Coverage Filename FileReport Options :
  renderFile Coverage Filename FileReport Options !! "summary"
  = Some (JObject (renderSummary FileReport)).
Proof. unfold renderFile. by obj_lookup. Qed.

Lemma renderFile_segments Coverage Filename FileReport Options :
  renderFile Coverage Filename FileReport Options !! "segments"
  = if ExportSummaryOnly Options then None
    else Some (renderFileSegments
                 (CoverageMapping.getCoverageForFile Coverage Filename)
                 FileReport).
Proof.
  unfold renderFile.
  destruct (ExportSummaryOnly Options), (SkipExpansions Options); simpl;
    by obj_lookup.
Qed.

Lemma renderFile_expansions Coverage Filename FileReport Options :
  renderFile Coverage Filename FileReport Options !! "expansions"
  = if ExportSummaryOnly Options || SkipExpansions Options then None
    else Some (renderFileExpansions
                 (CoverageMapping.getCoverageForFile Coverage Filename)
                 FileReport).
Proof.
  unfold renderFile.
  destruct (ExportSummaryOnly Options), (SkipExpansions Options); simpl;
    by obj_lookup.
Qed.

Lemma filenameOf_renderFile Coverage Filename FileReport Options :
  filenameOf (JObject (renderFile Coverage Filename FileReport Options))
  = Some Filename.
Proof.
  unfold filenameOf, Json.getString. simpl.
  by rewrite renderFile_filename.
Qed.

(** C4: a rendered file object always has [summary], and it is the supplied
    summary rendered as it is; it has [segments] exactly when
    [exportSummaryOnly] is false, and [expansions] exactly when both
    [exportSummaryOnly] and [skipExpansions] are false. *)
Theorem renderFile_keys Coverage Filename FileReport Options :
  let File := renderFile Coverage Filename FileReport Options in
  File !! "summary" = Some (JObject (renderSummary FileReport))
  ∧ (is_Some (File !! "segments") ↔ ExportSummaryOnly Options = false)
  ∧ (is_Some (File !! "expansions")
     ↔ ExportSummaryOnly Options = false ∧ SkipExpansions Options = false).
Proof.
  intros File. subst File.
  rewrite renderFile_summary, renderFile_segments, renderFile_expansions.
  split; [done|].
  destruct (ExportSummaryOnly Options), (SkipExpansions Options); simpl;
    rewrite !is_Some_alt; intuition congruence.
Qed.

(** C6: with [exportSummaryOnly] false, the [segments] array of a file is
    the provider's segment sequence for that file rendered element by
    element: as many entries, in the same order, each the five-element array
    [line, column, count, hasCount, isRegionEntry]. *)
Theorem renderFile_segments_map Coverage Filename FileReport Options :
  ExportSummaryOnly Options = false →
  let Segments :=
    CoverageData.Segments
      (CoverageMapping.getCoverageForFile Coverage Filename) in
  ∃ out,
    renderFile Coverage Filename FileReport Options !! "segments"
    = Some (JArray out)
    ∧ out = renderSegment <$> Segments
    ∧ length out = length Segments
    ∧ ∀ (i : nat) Segment, Segments !! i = Some Segment →
        out !! i
        = Some (JArray [JInt (Z.of_N (Line Segment));
                        JInt (Z.of_N (Col Segment));
                        JInt (Int.to_int64 (Count Segment));
                        JBool (HasCount Segment);
                        JBool (IsRegionEntry Segment)]).
Proof.
  intros Hfull Segments. exists (renderSegment <$> Segments).
  rewrite renderFile_segments, Hfull.
  split; [done|]. split; [done|]. split; [by rewrite length_fmap|].
  intros i Segment Hi. by rewrite list_lookup_fmap, Hi.
Qed.

Lemma renderFile_segments_map_witness :
  ∃ out,
    renderFile Sample.mapping "a.c" Sample.small (Sample.options 0)
      !! "segments" = Some (JArray out)
    ∧ length out = 1%nat
    ∧ out !! 0%nat
      = Some (JArray [JInt 10; JInt 1; JInt 5; JBool true; JBool true]).
Proof.
  destruct (renderFile_segments_map Sample.mapping "a.c" Sample.small
              (Sample.options 0) eq_refl) as (out & Hout & _ & Hlen & Hnth).
  exists out. split; [exact Hout|]. split; [exact Hlen|].
  exact (Hnth 0%nat Sample.segment eq_refl).
Defined.


Lemma renderSummary_metrics Summary :
  let out := renderSummary Summary in
  let L := LineCoverage Summary in
  let F := FunctionCoverage Summary in
  let I := InstantiationCoverage Summary in
  let R := RegionCoverage Summary in
  metric out "lines" "count"
  = Some (Int.to_int64 (LineCoverageInfo.getNumLines L))
  ∧ metric out "lines" "covered"
    = Some (Int.to_int64 (LineCoverageInfo.getCovered L))
  ∧ metric out "functions" "count"
    = Some (Int.to_int64 (FunctionCoverageInfo.getNumFunctions F))
  ∧ metric out "functions" "covered"
    = Some (Int.to_int64 (FunctionCoverageInfo.getExecuted F))
  ∧ metric out "instantiations" "count"
    = Some (Int.to_int64 (FunctionCoverageInfo.getNumFunctions I))
  ∧ metric out "instantiations" "covered"
    = Some (Int.to_int64 (FunctionCoverageInfo.getExecuted I))
  ∧ metric out "regions" "count"
    = Some (Int.to_int64 (RegionCoverageInfo.getNumRegions R))
  ∧ metric out "regions" "covered"
    = Some (Int.to_int64 (RegionCoverageInfo.getCovered R))
  ∧ metric out "regions" "notcovered"
    = Some (Int.to_int64
              (Int.size_t_sub (RegionCoverageInfo.getNumRegions R)
                              (RegionCoverageInfo.getCovered R))).
Proof.
  intros out L F I R. subst out. unfold metric, renderSummary.
  repeat split; by obj_lookup.
Qed.

(** C7, as the code has it: when every count of the supplied summary is
    below 2^63 and the summary satisfies covered ≤ count, every block of the
    rendered summary has covered ≤ count, and the regions block has
    notcovered = count - covered as integers. *)
Theorem renderSummary_invariants Summary :
  fits_int64 Summary → covered_le_count Summary →
  let out := renderSummary Summary in
  (∀ block, block ∈ ["lines"; "functions"; "instantiations"; "regions"] →
     ∃ count covered,
       metric out block "count" = Some count
       ∧ metric out block "covered" = Some covered
       ∧ 0 ≤ covered ≤ count)
  ∧ ∃ count covered notcovered,
      metric out "regions" "count" = Some count
      ∧ metric out "regions" "covered" = Some covered
      ∧ metric out "regions" "notcovered" = Some notcovered
      ∧ notcovered = count - covered.
Proof.
  intros Hfit (HL & HF & HI & HR) out.
  destruct (renderSummary_metrics Summary)
    as (Lc & Lv & Fc & Fv & Ic & Iv & Rc & Rv & Rn).
  unfold fits_int64 in Hfit. rewrite !Forall_cons in Hfit.
  destruct Hfit as (? & ? & ? & ? & ? & ? & ? & ? & _).
  rewrite size_t_sub_int64 in Rn by done.
  rewrite to_int64_small in Lc, Lv, Fc, Fv, Ic, Iv, Rc, Rv by done.
  split.
  - intros block Hblock. rewrite !elem_of_cons, elem_of_nil in Hblock.
    destruct Hblock as [->|[->|[->|[->|[]]]]];
      eexists _, _; (split; [eassumption|split; [eassumption|lia]]).
  - eexists _, _, _. by repeat (split; [eassumption|]).
Qed.

Lemma renderSummary_invariants_witness :
  metric (renderSummary Sample.small) "regions" "notcovered" = Some 4
  ∧ ∃ count covered,
      metric (renderSummary Sample.small) "lines" "count" = Some count
      ∧ metric (renderSummary Sample.small) "lines" "covered" = Some covered
      ∧ 0 ≤ covered ≤ count.
Proof.
  assert (Hfit : fits_int64 Sample.small)
    by (unfold fits_int64; simpl; repeat constructor).
  assert (Hinv : covered_le_count Sample.small)
    by (unfold covered_le_count; simpl; lia).
  destruct (renderSummary_invariants Sample.small Hfit Hinv) as [Hblocks _].
  split; [reflexivity|].
  apply Hblocks. repeat constructor.
Defined.

(** C7, as stated, fails at the edge of [int64_t]: a summary with 2^63 lines
    and regions, one of each covered, satisfies covered ≤ count, and is
    rendered with a negative count. *)
Lemma renderSummary_huge :
  covered_le_count Sample.huge
  ∧ ∃ count covered notcovered,
      metric (renderSummary Sample.huge) "lines" "count" = Some count
      ∧ metric (renderSummary Sample.huge) "lines" "covered" = Some covered
      ∧ metric (renderSummary Sample.huge) "regions" "count" = Some count
      ∧ metric (renderSummary Sample.huge) "regions" "covered" = Some covered
      ∧ metric (renderSummary Sample.huge) "regions" "notcovered"
        = Some notcovered
      ∧ ¬ covered ≤ count
      ∧ notcovered ≠ count - covered.
Proof.
  split; [unfold covered_le_count; simpl; lia|].
  exists (-9223372036854775808), 1, 9223372036854775807.
  repeat (split; [reflexivity|]). split; lia.
Qed.

(** ** The worker count *)

Lemma workerCount_pos hw Options SourceFiles :
  (1 ≤ workerCount hw Options SourceFiles)%N.
Proof.
  unfold workerCount.
  destruct (N.eqb_spec (NumThreads Options) 0); lia.
Qed.

(** C8, as the code has it: a nonzero [numThreads] is the worker count as it
    is; for zero the worker count is max(1, min(hardwareConcurrency, n))
    where n is the number of files truncated to 32 bits, which is the number
    of files when there are fewer than 2^32. *)
Theorem workerCount_policy hw Options SourceFiles :
  let n := Int.size SourceFiles in
  (NumThreads Options ≠ 0%N →
     workerCount hw Options SourceFiles = NumThreads Options)
  ∧ (NumThreads Options = 0%N →
     workerCount hw Options SourceFiles
     = N.max 1 (N.min hw (n mod Int.two32)))
  ∧ (NumThreads Options = 0%N → (n < Int.two32)%N →
     workerCount hw Options SourceFiles = N.max 1 (N.min hw n)).
Proof.
  intros n. unfold workerCount.
  destruct (N.eqb_spec (NumThreads Options) 0) as [Hz|Hnz].
  - split; [done|]. split; [done|].
    intros _ Hn. by rewrite to_unsigned_small.
  - done.
Qed.

(** C8, as stated, fails for 2^32 files: the truncated count is 0 and the
    worker count 1, where max(1, min(8, 2^32)) is 8. *)
Lemma workerCount_manyFiles :
  NumThreads (Sample.options 0) = 0%N
  ∧ workerCount 8 (Sample.options 0) Sample.manyFiles = 1%N
  ∧ N.max 1 (N.min 8 (Int.size Sample.manyFiles)) = 8%N.
Proof.
  split; [reflexivity|]. unfold workerCount, Int.to_unsigned.
  rewrite manyFiles_size. split; reflexivity.
Qed.


(** ** Executions of the pool *)

Section PoolFacts.
Context (Coverage : CoverageMapping.t).
Context (SourceFiles : list string) (FileReports : list FileCoverageSummary).
Context (Options : CoverageViewOptions) (NumThreads : N).

Local Abbreviation step := (Pool.step Coverage SourceFiles FileReports Options NumThreads).
Local Abbreviation run := (Pool.run Coverage SourceFiles FileReports Options NumThreads).
Local Abbreviation Inv := (PoolInv.Inv Coverage SourceFiles FileReports Options).
Local Abbreviation seqFiles := (sequentialFiles Coverage SourceFiles FileReports Options).
Local Abbreviation E := (Pool.E SourceFiles).

Lemma sequentialFiles_lookup (i : nat) SF FR :
  SourceFiles !! i = Some SF → FileReports !! i = Some FR →
  seqFiles !! i = Some (JObject (renderFile Coverage SF FR Options)).
Proof.
  intros HSF HFR. unfold sequentialFiles.
  by rewrite lookup_zip_with, HSF, HFR.
Qed.

Lemma init_Inv : Inv Pool.init.
Proof.
  unfold PoolInv.Inv, PoolInv.submitted. simpl.
  split; [lia|]. split; [lia|]. done.
Qed.

Lemma step_Inv ev s s' : Inv s → step ev s = Some s' → Inv s'.
Proof.
  intros (HE & Hlen & Hperm) Hstep. unfold PoolInv.Inv, PoolInv.submitted in *.
  destruct ev as [| |w|w]; simpl in Hstep.
  - destruct (N.ltb_spec (Pool.Idx s) E) as [Hlt|]; [|done].
    destruct (SourceFiles !! N.to_nat (Pool.Idx s)) as [SF|] eqn:HSF; [|done].
    destruct (FileReports !! N.to_nat (Pool.Idx s)) as [FR|] eqn:HFR; [|done].
    simplify_eq/=.
    pose proof (sequentialFiles_lookup _ _ _ HSF HFR) as Hseq.
    replace (N.to_nat (Pool.Idx s + 1)) with (S (N.to_nat (Pool.Idx s))) by lia.
    split; [lia|]. split; [by apply lookup_lt_Some in Hseq|].
    rewrite (take_S_r _ _ _ Hseq), <-Hperm, fmap_app, !(assoc_L (++)). done.
  - destruct (Pool.Tasks s) as [|T Queue] eqn:HT; [done|].
    destruct (N.ltb_spec (N.of_nat (length (Pool.Active s))) NumThreads);
      [|done].
    simplify_eq/=. split; [done|]. split; [done|].
    rewrite <-Hperm, fmap_app. simpl.
    rewrite <-!(assoc_L (++)). by do 2 f_equiv.
  - destruct (Pool.Active s !! w) as [[T|File]|] eqn:HW; [|done..].
    simplify_eq/=. split; [done|]. split; [done|].
    rewrite <-Hperm, list_fmap_insert. simpl.
    rewrite list_insert_id; [done|]. by rewrite list_lookup_fmap, HW.
  - destruct (Pool.Active s !! w) as [[T|File]|] eqn:HW; [done| |done].
    simplify_eq/=. split; [done|]. split; [done|].
    rewrite <-Hperm.
    rewrite (delete_Permutation (Pool.Active s) w _ HW) at 2. simpl.
    by rewrite <-!(assoc_L (++)); f_equiv.
Qed.

Lemma run_Inv sched s s' : Inv s → run sched s = Some s' → Inv s'.
Proof.
  revert s. induction sched as [|ev sched IH]; intros s HI Hrun; simpl in Hrun.
  - by simplify_eq.
  - destruct (step ev s) as [s1|] eqn:Hstep; [|done]. simpl in Hrun.
    eapply IH; [|done]. by eapply step_Inv.
Qed.

Lemma run_app sched1 sched2 s :
  run (sched1 ++ sched2) s = s' ← run sched1 s; run sched2 s'.
Proof.
  revert s. induction sched1 as [|ev sched1 IH]; intros s; simpl; [done|].
  destruct (step ev s) as [s1|]; simpl; [apply IH|done].
Qed.

(** When [wait] returns, every file up to the loop bound has been pushed:
    the array is a rearrangement of their sequential rendering. *)
Lemma wait_returns_all s :
  Inv s → Pool.wait_returns SourceFiles s = true →
  Pool.FileArray s ≡ₚ take (N.to_nat E) seqFiles
  ∧ length (Pool.FileArray s) = N.to_nat E.
Proof.
  intros (HE & Hlen & Hperm) Hret. unfold Pool.wait_returns in Hret.
  apply andb_prop in Hret as [Hret HA]. apply andb_prop in Hret as [HI HT].
  apply N.eqb_eq in HI. apply bool_decide_eq_true in HT, HA.
  unfold PoolInv.submitted in Hperm. rewrite HT, HA, HI in Hperm.
  simpl in Hperm. rewrite app_nil_r in Hperm.
  split; [done|]. rewrite Hperm, length_take. rewrite HI in Hlen. lia.
Qed.

Lemma step_weight ev s s' :
  Inv s → step ev s = Some s' →
  PoolInv.weight SourceFiles s = S (PoolInv.weight SourceFiles s').
Proof.
  intros (HE & _ & _) Hstep. unfold PoolInv.weight.
  destruct ev as [| |w|w]; simpl in Hstep.
  - destruct (N.ltb_spec (Pool.Idx s) E) as [Hlt|]; [|done].
    destruct (SourceFiles !! _); [|done]. destruct (FileReports !! _); [|done].
    simplify_eq/=. rewrite length_app. simpl. lia.
  - destruct (Pool.Tasks s) as [|T Queue]; [done|].
    destruct (N.of_nat _ <? NumThreads)%N; [|done].
    simplify_eq/=. rewrite sum_list_with_app. simpl. lia.
  - destruct (Pool.Active s !! w) as [[T|File]|] eqn:HW; [|done..].
    simplify_eq/=.
    rewrite <-(take_drop_middle _ _ _ HW) at 1.
    rewrite insert_take_drop by (by eapply lookup_lt_Some).
    rewrite !sum_list_with_app. simpl. lia.
  - destruct (Pool.Active s !! w) as [[T|File]|] eqn:HW; [done| |done].
    simplify_eq/=.
    rewrite <-(take_drop_middle _ _ _ HW) at 1.
    rewrite delete_take_drop.
    rewrite !sum_list_with_app. simpl. lia.
Qed.

(** An execution from the start has at most [4 * E] events left at any
    point: no schedule keeps the pool running for ever. *)
Lemma run_weight sched s s' :
  Inv s → run sched s = Some s' →
  PoolInv.weight SourceFiles s
  = (length sched + PoolInv.weight SourceFiles s')%nat.
Proof.
  revert s. induction sched as [|ev sched IH]; intros s HI Hrun; simpl in Hrun.
  - by simplify_eq.
  - destruct (step ev s) as [s1|] eqn:Hstep; [|done]. simpl in Hrun.
    rewrite (step_weight _ _ _ HI Hstep).
    rewrite (IH s1); [simpl; lia|by eapply step_Inv|done].
Qed.

(** The pool cannot get stuck before [wait] returns: with a summary for
    every file and at least one worker, some event is enabled. *)
Lemma step_progress s :
  (N.to_nat E ≤ length SourceFiles)%nat →
  (N.to_nat E ≤ length FileReports)%nat →
  (1 ≤ NumThreads)%N →
  Inv s → Pool.wait_returns SourceFiles s = false →
  ∃ ev s', step ev s = Some s'.
Proof.
  intros HSF HFR HN (HE & _ & _) Hret.
  destruct (Pool.Active s) as [|W Ws] eqn:HA.
  - destruct (Pool.Tasks s) as [|T Queue] eqn:HT.
    + assert (Hlt : (Pool.Idx s < E)%N).
      { unfold Pool.wait_returns in Hret. rewrite HA, HT in Hret.
        rewrite !bool_decide_eq_true_2, !andb_true_r in Hret by done.
        apply N.eqb_neq in Hret. lia. }
      destruct (lookup_lt_is_Some_2 SourceFiles (N.to_nat (Pool.Idx s)))
        as [SF HSFi]; [lia|].
      destruct (lookup_lt_is_Some_2 FileReports (N.to_nat (Pool.Idx s)))
        as [FR HFRi]; [lia|].
      exists Pool.Submit. simpl.
      destruct (N.ltb_spec (Pool.Idx s) E); [|lia].
      rewrite HSFi, HFRi. simpl. eauto.
    + exists Pool.Start. simpl. rewrite HT, HA. simpl.
      destruct (N.ltb_spec (N.of_nat 0) NumThreads); [eauto|simpl in *; lia].
  - destruct W as [T|File].
    + exists (Pool.Render 0). simpl. rewrite HA. simpl. eauto.
    + exists (Pool.Push 0). simpl. rewrite HA. simpl. eauto.
Qed.

(** Every execution can be carried on until [wait] returns. *)
Lemma run_complete s :
  (N.to_nat E ≤ length FileReports)%nat → (1 ≤ NumThreads)%N → Inv s →
  ∃ sched s', run sched s = Some s'
              ∧ Pool.wait_returns SourceFiles s' = true.
Proof.
  intros HFR HN. assert (HSF : (N.to_nat E ≤ length SourceFiles)%nat).
  { unfold Pool.E, Int.to_unsigned, Int.size.
    pose proof (N.Div0.mod_le (N.of_nat (length SourceFiles)) Int.two32). lia. }
  remember (PoolInv.weight SourceFiles s) as n eqn:Hn.
  revert s Hn. induction n as [n IH] using lt_wf_ind. intros s Hn HI.
  destruct (Pool.wait_returns SourceFiles s) eqn:Hret.
  - by exists [], s.
  - destruct (step_progress s HSF HFR HN HI Hret) as (ev & s1 & Hstep).
    pose proof (step_weight _ _ _ HI Hstep) as Hw.
    destruct (IH (PoolInv.weight SourceFiles s1)) with (s := s1)
      as (sched & s' & Hrun & Hdone); [lia|done|by eapply step_Inv|].
    exists (ev :: sched), s'. simpl. by rewrite Hstep.
Qed.

(** The sequential schedule renders the next [n] files in their order. *)
Lemma run_sequential (n : nat) s :
  Pool.Tasks s = [] → Pool.Active s = [] →
  (N.to_nat (Pool.Idx s) + n ≤ N.to_nat E)%nat →
  (N.to_nat E ≤ length SourceFiles)%nat →
  (N.to_nat E ≤ length FileReports)%nat →
  (1 ≤ NumThreads)%N →
  run (Pool.sequential n) s
  = Some {| Pool.Idx := Pool.Idx s + N.of_nat n;
            Pool.Tasks := [];
            Pool.Active := [];
            Pool.FileArray :=
              Pool.FileArray s
              ++ take n (drop (N.to_nat (Pool.Idx s)) seqFiles) |}.
Proof.
  intros HT HA Hn HSF HFR HN. revert s HT HA Hn.
  induction n as [|n IH]; intros [i Ts As FA] HT HA Hn; simpl in *; subst.
  - by rewrite N.add_0_r, app_nil_r.
  - destruct (lookup_lt_is_Some_2 SourceFiles (N.to_nat i)) as [SF HSFi]; [lia|].
    destruct (lookup_lt_is_Some_2 FileReports (N.to_nat i)) as [FR HFRi]; [lia|].
    pose proof (sequentialFiles_lookup _ _ _ HSFi HFRi) as Hseq.
    unfold Pool.sequential in *. simpl.
    destruct (N.ltb_spec i E); [|lia]. rewrite HSFi, HFRi. simpl.
    destruct (N.ltb_spec (N.of_nat 0) NumThreads); [|simpl in *; lia]. simpl.
    rewrite IH; simpl; [|done|done|lia].
    replace (N.to_nat (i + 1)) with (S (N.to_nat i)) by lia.
    rewrite (drop_S _ _ _ Hseq). simpl.
    rewrite <-(assoc_L (++)). simpl.
    do 2 f_equal. lia.
Qed.

End PoolFacts.

Lemma E_le_size (SourceFiles : list string) :
  (N.to_nat (Pool.E SourceFiles) ≤ length SourceFiles)%nat.
Proof.
  unfold Pool.E, Int.to_unsigned, Int.size.
  pose proof (N.Div0.mod_le (N.of_nat (length SourceFiles)) Int.two32). lia.
Qed.

Lemma E_small (SourceFiles : list string) :
  (Int.size SourceFiles < Int.two32)%N →
  N.to_nat (Pool.E SourceFiles) = length SourceFiles.
Proof.
  intros Hlt. unfold Pool.E. rewrite to_unsigned_small by done.
  unfold Int.size. lia.
Qed.

(** ** [renderFiles] *)

(** What [renderFiles] returns is a rearrangement of the sequential
    rendering of the files up to the loop bound. *)
Lemma renderFiles_Permutation hw sched Coverage SourceFiles FileReports
    Options Files :
  renderFiles hw sched Coverage SourceFiles FileReports Options = Some Files →
  Files ≡ₚ take (N.to_nat (Pool.E SourceFiles))
              (sequentialFiles Coverage SourceFiles FileReports Options)
  ∧ length Files = N.to_nat (Pool.E SourceFiles).
Proof.
  unfold renderFiles. intros Hrf.
  destruct (Pool.run _ _ _ _ _ _ _) as [s|] eqn:Hrun; [|done]. simpl in Hrf.
  destruct (Pool.wait_returns SourceFiles s) eqn:Hret; [|done].
  simplify_eq. eapply wait_returns_all; [|done].
  eapply run_Inv; [apply init_Inv|done].
Qed.

(** With a summary for every file the sequential schedule is an execution,
    whatever the worker count. *)
Lemma renderFiles_sequential hw Coverage SourceFiles FileReports Options :
  (N.to_nat (Pool.E SourceFiles) ≤ length FileReports)%nat →
  renderFiles hw (Pool.sequential (N.to_nat (Pool.E SourceFiles)))
    Coverage SourceFiles FileReports Options
  = Some (take (N.to_nat (Pool.E SourceFiles))
            (sequentialFiles Coverage SourceFiles FileReports Options)).
Proof.
  intros HFR. unfold renderFiles.
  rewrite run_sequential;
    [|done|done|simpl; lia|apply E_le_size|done|apply workerCount_pos].
  simpl. unfold Pool.wait_returns. simpl.
  rewrite N2Nat.id, N.eqb_refl. simpl. by rewrite drop_0.
Qed.


(** The pool does not deadlock: with a summary for every file, whatever
    the pool has done so far, the execution can go on until [Pool.wait()]
    returns and [renderFiles] with it. *)
Lemma renderFiles_can_return hw sched Coverage SourceFiles FileReports
    Options s :
  (N.to_nat (Pool.E SourceFiles) ≤ length FileReports)%nat →
  Pool.run Coverage SourceFiles FileReports Options
    (workerCount hw Options SourceFiles) sched Pool.init = Some s →
  ∃ sched' Files,
    renderFiles hw (sched ++ sched') Coverage SourceFiles FileReports Options
    = Some Files.
Proof.
  intros HFR Hrun.
  destruct (run_complete Coverage SourceFiles FileReports Options
              (workerCount hw Options SourceFiles) s HFR)
    as (sched' & s' & Hrun' & Hret).
  { apply workerCount_pos. }
  { eapply run_Inv; [apply init_Inv|done]. }
  exists sched', (Pool.FileArray s'). unfold renderFiles.
  rewrite run_app, Hrun. simpl. rewrite Hrun'. simpl. by rewrite Hret.
Qed.

(** ** The comparator and the sort *)

Lemma StringRef_compare_refl a : StringRef_compare a a = 0.
Proof.
  induction a as [|c a IH]; simpl; [done|].
  by rewrite N.ltb_irrefl.
Qed.

Lemma StringRef_compare_eq a b : StringRef_compare a b = 0 → a = b.
Proof.
  revert b. induction a as [|c a IH]; intros [|d b]; simpl; try done.
  destruct (N.ltb_spec (N_of_ascii c) (N_of_ascii d)); [done|].
  destruct (N.ltb_spec (N_of_ascii d) (N_of_ascii c)); [done|].
  intros Hab. f_equal; [|by apply IH].
  rewrite <-(ascii_N_embedding c), <-(ascii_N_embedding d). f_equal. lia.
Qed.

Lemma StringRef_compare_antisym a b :
  StringRef_compare b a = - StringRef_compare a b.
Proof.
  revert b. induction a as [|c a IH]; intros [|d b]; simpl; try done.
  destruct (N.ltb_spec (N_of_ascii c) (N_of_ascii d)),
           (N.ltb_spec (N_of_ascii d) (N_of_ascii c)); try done; lia.
Qed.

Lemma str_lt_trans a b c : str_lt a b → str_lt b c → str_lt a c.
Proof.
  unfold str_lt. revert b c.
  induction a as [|x a IH]; intros [|y b] [|z c]; simpl; try done.
  destruct (N.ltb_spec (N_of_ascii x) (N_of_ascii y)),
           (N.ltb_spec (N_of_ascii y) (N_of_ascii x)),
           (N.ltb_spec (N_of_ascii y) (N_of_ascii z)),
           (N.ltb_spec (N_of_ascii z) (N_of_ascii y)),
           (N.ltb_spec (N_of_ascii x) (N_of_ascii z)),
           (N.ltb_spec (N_of_ascii z) (N_of_ascii x));
    try done; try lia.
  all: apply IH.
Qed.

Lemma str_lt_asym a b : str_lt a b → ¬ str_lt b a.
Proof. unfold str_lt. rewrite (StringRef_compare_antisym a b). lia. Qed.

Lemma str_lt_total a b : a ≠ b → ¬ str_lt a b → str_lt b a.
Proof.
  unfold str_lt. intros Hne Hnlt. rewrite (StringRef_compare_antisym a b).
  destruct (Z.eq_dec (StringRef_compare a b) 0) as [Heq|Hneq]; [|lia].
  by apply StringRef_compare_eq in Heq.
Qed.

Lemma compareFiles_filenameOf A B a b :
  filenameOf A = Some a → filenameOf B = Some b →
  compareFiles A B = Some (StringRef_compare a b <? 0).
Proof.
  unfold filenameOf, compareFiles. intros HA HB.
  destruct (Json.getAsObject A) as [ObjA|]; [|done].
  destruct (Json.getAsObject B) as [ObjB|]; [|done].
  simpl in *. by rewrite HA, HB.
Qed.

Lemma has_filename_fname File :
  has_filename File → filenameOf File = Some (fname File).
Proof. intros [a Ha]. unfold fname. by rewrite Ha. Qed.

Lemma compareFiles_fname A B :
  has_filename A → has_filename B →
  compareFiles A B = Some (bool_decide (file_lt A B)).
Proof.
  intros HA%has_filename_fname HB%has_filename_fname.
  rewrite (compareFiles_filenameOf _ _ _ _ HA HB). f_equal.
  unfold file_lt, str_lt.
  destruct (Z.ltb_spec (StringRef_compare (fname A) (fname B)) 0).
  - by rewrite bool_decide_eq_true_2.
  - rewrite bool_decide_eq_false_2; [done|lia].
Qed.

Lemma file_lt_trans A B C : file_lt A B → file_lt B C → file_lt A C.
Proof. apply str_lt_trans. Qed.

Lemma insert_sorted_Permutation {A} (comp : A → A → option bool) x l l' :
  insert_sorted comp x l = Some l' → l' ≡ₚ x :: l.
Proof.
  revert l'. induction l as [|y l IH]; intros l' Hins; simpl in Hins.
  - by simplify_eq.
  - destruct (comp x y) as [[]|]; simpl in Hins; [by simplify_eq| |done].
    destruct (insert_sorted comp x l) as [l''|]; [|done].
    simplify_eq/=. rewrite (IH l'') by done. apply Permutation_swap.
Qed.

Lemma std_sort_Permutation {A} (comp : A → A → option bool) l l' :
  std_sort comp l = Some l' → l' ≡ₚ l.
Proof.
  revert l'. induction l as [|x l IH]; intros l' Hs; simpl in Hs.
  - by simplify_eq.
  - destruct (std_sort comp l) as [s|]; [|done]. simpl in Hs.
    rewrite (insert_sorted_Permutation _ _ _ _ Hs). by rewrite (IH s).
Qed.

(** On files that all carry a name the comparator never fails, and
    neither does the sort. *)
Lemma insert_sorted_is_Some x l :
  has_filename x → Forall has_filename l →
  is_Some (insert_sorted compareFiles x l).
Proof.
  intros Hx. induction 1 as [|y l Hy Hl IH]; simpl; [done|].
  rewrite compareFiles_fname by done. simpl.
  destruct (bool_decide _); [done|]. destruct IH as [l' ->]. done.
Qed.

Lemma std_sort_is_Some l :
  Forall has_filename l → is_Some (std_sort compareFiles l).
Proof.
  induction 1 as [|x l Hx Hl IH]; simpl; [done|].
  destruct IH as [s Hs]. rewrite Hs. simpl.
  apply insert_sorted_is_Some; [done|].
  by rewrite (std_sort_Permutation _ _ _ Hs).
Qed.

Lemma insert_sorted_StronglySorted x l l' :
  has_filename x → Forall has_filename l →
  fname x ∉ fname <$> l →
  StronglySorted file_lt l →
  insert_sorted compareFiles x l = Some l' →
  StronglySorted file_lt l'.
Proof.
  intros Hx Hl. revert l'.
  induction Hl as [|y l Hy Hl IH]; intros l' Hfresh Hsorted Hins;
    simpl in Hins.
  - simplify_eq. by repeat constructor.
  - rewrite compareFiles_fname in Hins by done. simpl in Hins.
    apply StronglySorted_inv in Hsorted as [Hsl Hyl].
    rewrite fmap_cons, not_elem_of_cons in Hfresh.
    destruct Hfresh as [Hxy Hfresh].
    destruct (bool_decide_reflect (file_lt x y)) as [Hlt|Hnlt].
    + simplify_eq. constructor; [by constructor|].
      constructor; [done|].
      eapply Forall_impl; [exact Hyl|]. intros z Hz.
      by apply (file_lt_trans x y z).
    + destruct (insert_sorted compareFiles x l) as [l''|] eqn:Hl''; [|done].
      simplify_eq/=. constructor; [by apply IH|].
      rewrite (insert_sorted_Permutation _ _ _ _ Hl'').
      constructor; [|done]. by apply str_lt_total.
Qed.

Lemma std_sort_StronglySorted l l' :
  Forall has_filename l → NoDup (fname <$> l) →
  std_sort compareFiles l = Some l' →
  StronglySorted file_lt l'.
Proof.
  intros Hl. revert l'.
  induction Hl as [|x l Hx Hl IH]; intros l' Hnd Hs; simpl in Hs.
  - simplify_eq. constructor.
  - rewrite fmap_cons in Hnd. apply NoDup_cons in Hnd as [Hfresh Hnd].
    destruct (std_sort compareFiles l) as [s|] eqn:Hsl; [|done]. simpl in Hs.
    pose proof (std_sort_Permutation _ _ _ Hsl) as Hperm.
    eapply (insert_sorted_StronglySorted x s); [done| | |by apply IH|done].
    + by rewrite Hperm.
    + by rewrite Hperm.
Qed.

Lemma StronglySorted_file_lt_unique l1 l2 :
  StronglySorted file_lt l1 → StronglySorted file_lt l2 → l1 ≡ₚ l2 → l1 = l2.
Proof.
  apply StronglySorted_unique_strong.
  intros A B _ _ HAB HBA. by destruct (str_lt_asym _ _ HAB).
Qed.

(** The sorted array depends on the set of files only, not on the order
    in which they were pushed. *)
Lemma std_sort_order_independent l1 l2 s1 :
  l1 ≡ₚ l2 → Forall has_filename l1 → NoDup (fname <$> l1) →
  std_sort compareFiles l1 = Some s1 →
  std_sort compareFiles l2 = Some s1.
Proof.
  intros Hperm Hl Hnd Hs1.
  destruct (std_sort_is_Some l2) as [s2 Hs2]; [by rewrite <-Hperm|].
  rewrite Hs2. f_equal. apply StronglySorted_file_lt_unique.
  - eapply std_sort_StronglySorted; [| |done]; by rewrite <-Hperm.
  - by eapply std_sort_StronglySorted.
  - rewrite (std_sort_Permutation _ _ _ Hs1), (std_sort_Permutation _ _ _ Hs2).
    done.
Qed.

(** Any result that meets the postcondition of [std::sort] is the array
    [std_sort] computes: on files with distinct names the algorithm behind
    [std::sort] does not matter. *)
Lemma std_sort_post_unique l l' :
  Forall has_filename l → NoDup (fname <$> l) →
  sort_post compareFiles l l' →
  std_sort compareFiles l = Some l'.
Proof.
  intros Hl Hnd [Hperm Hpost].
  destruct (std_sort_is_Some l Hl) as [s Hs]. rewrite Hs. f_equal.
  apply StronglySorted_file_lt_unique.
  - by eapply std_sort_StronglySorted.
  - assert (Hl' : Forall has_filename l') by (by rewrite Hperm).
    assert (Hnd' : NoDup (fname <$> l')) by (by rewrite Hperm).
    clear Hperm Hs Hl Hnd. induction l' as [|x l' IH]; [constructor|].
    apply Forall_cons in Hl' as [Hx Hl'].
    rewrite fmap_cons in Hnd'. apply NoDup_cons in Hnd' as [Hfresh Hnd'].
    constructor.
    + apply IH; [|done..]. intros i j A B Hij HA HB.
      apply (Hpost (S i) (S j)); [lia|done..].
    + apply Forall_forall. intros y Hy.
      destruct (proj1 (list_elem_of_lookup _ _) Hy) as [j Hj].
      pose proof (Hpost 0%nat (S j) x y ltac:(lia) eq_refl Hj) as Hc.
      rewrite Forall_forall in Hl'.
      rewrite compareFiles_fname in Hc by auto.
      simplify_eq. apply bool_decide_eq_false in Hc.
      apply str_lt_total; [|done].
      intros Heq. apply Hfresh. rewrite <-Heq. by apply list_elem_of_fmap_2.
  - by rewrite (std_sort_Permutation _ _ _ Hs).
Qed.


(** ** The files handed to the sort *)

Lemma sequentialFiles_has_filename Coverage SourceFiles FileReports Options :
  Forall has_filename
    (sequentialFiles Coverage SourceFiles FileReports Options).
Proof.
  unfold sequentialFiles. revert FileReports.
  induction SourceFiles as [|SF SFs IH]; intros [|FR FRs]; simpl;
    try constructor; [|apply IH].
  unfold has_filename. by rewrite filenameOf_renderFile.
Qed.

Lemma sequentialFiles_fname Coverage SourceFiles FileReports Options :
  fname <$> sequentialFiles Coverage SourceFiles FileReports Options
  = take (length FileReports) SourceFiles.
Proof.
  unfold sequentialFiles. revert FileReports.
  induction SourceFiles as [|SF SFs IH]; intros [|FR FRs]; simpl; try done.
  unfold fname at 1. rewrite filenameOf_renderFile. simpl. f_equal. apply IH.
Qed.

Lemma sequentialFiles_NoDup Coverage SourceFiles FileReports Options n :
  NoDup SourceFiles →
  NoDup (fname <$>
           take n (sequentialFiles Coverage SourceFiles FileReports Options)).
Proof.
  intros Hnd. rewrite fmap_take, sequentialFiles_fname, take_take.
  eapply sublist_NoDup; [|apply sublist_take]. done.
Qed.

Lemma sequentialFiles_setNumThreads n Coverage SourceFiles FileReports Options :
  sequentialFiles Coverage SourceFiles FileReports (setNumThreads n Options)
  = sequentialFiles Coverage SourceFiles FileReports Options.
Proof. done. Qed.

Lemma renderFiles_has_filename hw sched Coverage SourceFiles FileReports
    Options Files :
  renderFiles hw sched Coverage SourceFiles FileReports Options = Some Files →
  Forall has_filename Files.
Proof.
  intros [Hperm _]%renderFiles_Permutation. rewrite Hperm.
  apply Forall_take, sequentialFiles_has_filename.
Qed.

Lemma renderFiles_NoDup hw sched Coverage SourceFiles FileReports
    Options Files :
  NoDup SourceFiles →
  renderFiles hw sched Coverage SourceFiles FileReports Options = Some Files →
  NoDup (fname <$> Files).
Proof.
  intros Hnd [Hperm _]%renderFiles_Permutation. rewrite Hperm.
  by apply sequentialFiles_NoDup.
Qed.

Lemma StronglySorted_lookup {A} (R : relation A) l (i j : nat) x y :
  StronglySorted R l → (i < j)%nat →
  l !! i = Some x → l !! j = Some y → R x y.
Proof.
  intros Hl. revert i j.
  induction Hl as [|z l Hl IH Hz]; intros i j Hij Hi Hj; [done|].
  destruct j as [|j]; [lia|]. simpl in Hj.
  destruct i as [|i]; simpl in Hi.
  - simplify_eq. rewrite Forall_forall in Hz.
    apply Hz. by eapply list_elem_of_lookup_2.
  - apply (IH i j); [lia|done..].
Qed.

(** C9: every element handed to the sort is an object with a string under
    [filename], so the comparator succeeds on any two of them (neither
    assertion fails, and no [getValue] meets an empty Optional), and so does
    the sort. *)
Theorem sort_input_well_formed hw sched Coverage SourceFiles FileReports
    Options Files :
  renderFiles hw sched Coverage SourceFiles FileReports Options = Some Files →
  (∀ File, File ∈ Files →
     ∃ Obj Filename,
       Json.getAsObject File = Some Obj
       ∧ Obj !! "filename" = Some (JString Filename)
       ∧ Json.getString Obj "filename" = Some Filename
       ∧ Filename ∈ SourceFiles)
  ∧ (∀ A B, A ∈ Files → B ∈ Files → is_Some (compareFiles A B))
  ∧ is_Some (std_sort compareFiles Files).
Proof.
  intros Hrf. pose proof (renderFiles_has_filename _ _ _ _ _ _ _ Hrf) as Hall.
  split; [|split].
  - intros File HFile.
    destruct (renderFiles_Permutation _ _ _ _ _ _ _ Hrf) as [Hperm _].
    rewrite Hperm in HFile. apply subseteq_take in HFile.
    unfold sequentialFiles in HFile.
    apply list_elem_of_lookup in HFile as [i Hi].
    apply lookup_zip_with_Some in Hi as (SF & FR & -> & HSF & HFR).
    exists (renderFile Coverage SF FR Options), SF.
    unfold Json.getString. rewrite renderFile_filename.
    repeat split. by eapply list_elem_of_lookup_2.
  - intros A B HA HB. rewrite Forall_forall in Hall.
    rewrite compareFiles_fname by auto. done.
  - by apply std_sort_is_Some.
Qed.

Lemma sort_input_well_formed_witness :
  ∃ A B,
    renderFiles 8 Sample.crossed Sample.mapping ["b.c"; "a.c"]
      [Sample.small; Sample.huge] (Sample.options 0) = Some [A; B]
    ∧ filenameOf A = Some "a.c"
    ∧ filenameOf B = Some "b.c"
    ∧ is_Some (compareFiles A B)
    ∧ is_Some (compareFiles B A)
    ∧ is_Some (std_sort compareFiles [A; B]).
Proof.
  exists (JObject (renderFile Sample.mapping "a.c" Sample.huge
                     (Sample.options 0))),
         (JObject (renderFile Sample.mapping "b.c" Sample.small
                     (Sample.options 0))).
  assert (Hrf : renderFiles 8 Sample.crossed Sample.mapping ["b.c"; "a.c"]
                  [Sample.small; Sample.huge] (Sample.options 0)
                = Some [JObject (renderFile Sample.mapping "a.c" Sample.huge
                                   (Sample.options 0));
                        JObject (renderFile Sample.mapping "b.c" Sample.small
                                   (Sample.options 0))])
    by reflexivity.
  destruct (sort_input_well_formed _ _ _ _ _ _ _ Hrf)
    as (_ & Hcmp & Hsort).
  split; [exact Hrf|].
  split; [reflexivity|]. split; [reflexivity|].
  split; [apply Hcmp; repeat constructor|].
  split; [apply Hcmp; repeat constructor|].
  exact Hsort.
Defined.

(** ** [renderRoot] *)

(** What a successful [renderRoot] did. *)
Lemma renderRoot_inv host this SourceFiles this' :
  renderRoot host this SourceFiles = Some this' →
  let Reports :=
    prepareFileReports host (Coverage this) (FileCoverageSummary_new "Totals")
                       SourceFiles (Options this) in
  ∃ Files Sorted,
    renderFiles (heavyweight_hardware_concurrency host) (schedule host)
      (Coverage this) SourceFiles Reports.1 (Options this) = Some Files
    ∧ std_sort compareFiles Files = Some Sorted
    ∧ this' = {| Coverage := Coverage this;
                 Options := Options this;
                 OS := OS this
                       ++ [renderDocument
                             (renderExport (Coverage this) (Options this)
                                           Sorted Reports.2)] |}.
Proof.
  intros Hrr Reports. subst Reports. unfold renderRoot in Hrr.
  destruct (prepareFileReports _ _ _ _ _) as [FileReports Totals]. simpl.
  destruct (renderFiles _ _ _ _ _ _) as [Files|]; [|done]. simpl in Hrr.
  destruct (std_sort compareFiles Files) as [Sorted|] eqn:Hsort; [|done].
  simpl in Hrr. simplify_eq. by exists Files, Sorted.
Qed.

Lemma renderDocument_eq Export :
  renderDocument Export
  = JObject {[ "version" := JString "2.0.0";
               "type" := JString "llvm.coverage.json.export";
               "data" := JArray [JObject Export] ]}.
Proof.
  unfold renderDocument, Json.Object.
  by rewrite !list_to_map_cons, list_to_map_nil, insert_empty.
Qed.

Lemma Doc_export_renderDocument Export :
  Doc.export (renderDocument Export) = Some Export.
Proof. unfold Doc.export, renderDocument. by obj_lookup. Qed.

Lemma renderExport_files Coverage Options Files Totals :
  renderExport Coverage Options Files Totals !! "files" = Some (JArray Files).
Proof.
  unfold renderExport.
  destruct (negb (ExportSummaryOnly Options) && negb (SkipFunctions Options));
    by obj_lookup.
Qed.

Lemma renderExport_totals Coverage Options Files Totals :
  renderExport Coverage Options Files Totals !! "totals"
  = Some (JObject (renderSummary Totals)).
Proof.
  unfold renderExport.
  destruct (negb (ExportSummaryOnly Options) && negb (SkipFunctions Options));
    by obj_lookup.
Qed.

Lemma renderExport_functions Coverage Options Files Totals :
  renderExport Coverage Options Files Totals !! "functions"
  = if ExportSummaryOnly Options || SkipFunctions Options then None
    else Some (renderFunctions (CoverageMapping.getCoveredFunctions Coverage)).
Proof.
  unfold renderExport.
  destruct (ExportSummaryOnly Options), (SkipFunctions Options); simpl;
    by obj_lookup.
Qed.

Lemma renderExport_eq Coverage Options Files Totals :
  renderExport Coverage Options Files Totals
  = let Export : gmap string json :=
      {[ "files" := JArray Files;
         "totals" := JObject (renderSummary Totals) ]} in
    if ExportSummaryOnly Options || SkipFunctions Options then Export
    else <["functions" :=
             renderFunctions (CoverageMapping.getCoveredFunctions Coverage)]>
           Export.
Proof.
  unfold renderExport, Json.set, Json.Object.
  rewrite !list_to_map_cons, list_to_map_nil, insert_empty.
  by destruct (ExportSummaryOnly Options), (SkipFunctions Options).
Qed.

Lemma Doc_files_renderDocument Coverage Options Files Totals :
  Doc.files (renderDocument (renderExport Coverage Options Files Totals))
  = Some Files.
Proof.
  unfold Doc.files. rewrite Doc_export_renderDocument. simpl.
  by rewrite renderExport_files.
Qed.

(** C1: whatever the files, the thread count, the host's concurrency and
    the schedule, the [files] array of the document written is strictly
    ascending by [filename], byte-wise, given distinct file names. *)
Theorem renderRoot_files_sorted host this SourceFiles this' :
  NoDup SourceFiles →
  renderRoot host this SourceFiles = Some this' →
  ∃ doc files,
    OS this' = (OS this ++ [doc])%list
    ∧ Doc.files doc = Some files
    ∧ ∀ (i j : nat) A B, (i < j)%nat →
        files !! i = Some A → files !! j = Some B →
        ∃ a b, filenameOf A = Some a ∧ filenameOf B = Some b
               ∧ StringRef_compare a b < 0.
Proof.
  intros Hnd (Files & Sorted & Hrf & Hsort & ->)%renderRoot_inv.
  eexists _, Sorted. split; [done|].
  split; [apply Doc_files_renderDocument|].
  pose proof (renderFiles_has_filename _ _ _ _ _ _ _ Hrf) as Hall.
  pose proof (renderFiles_NoDup _ _ _ _ _ _ _ Hnd Hrf) as HndF.
  pose proof (std_sort_StronglySorted _ _ Hall HndF Hsort) as Hsorted.
  rewrite <-(std_sort_Permutation _ _ _ Hsort), Forall_forall in Hall.
  intros i j A B Hij HA HB.
  exists (fname A), (fname B).
  split; [|split].
  - apply has_filename_fname, Hall. by eapply list_elem_of_lookup_2.
  - apply has_filename_fname, Hall. by eapply list_elem_of_lookup_2.
  - by apply (StronglySorted_lookup file_lt Sorted i j).
Qed.

Lemma renderRoot_files_sorted_witness :
  ∃ doc files,
    OS Sample.exported = (OS (Sample.exporter 0) ++ [doc])%list
    ∧ Doc.files doc = Some files
    ∧ ∀ (i j : nat) A B, (i < j)%nat →
        files !! i = Some A → files !! j = Some B →
        ∃ a b, filenameOf A = Some a ∧ filenameOf B = Some b
               ∧ StringRef_compare a b < 0.
Proof.
  apply (renderRoot_files_sorted (Sample.host Sample.crossed)
           (Sample.exporter 0) ["b.c"; "a.c"]).
  - apply (bool_decide_unpack _). vm_compute. exact I.
  - vm_compute. reflexivity.
Defined.

(** C5: the export object of the document written has a [functions] key
    exactly when [exportSummaryOnly] and [skipFunctions] are both false;
    either option alone suppresses it. *)
Theorem renderRoot_functions_key host this SourceFiles this' :
  renderRoot host this SourceFiles = Some this' →
  ∃ doc Export,
    OS this' = (OS this ++ [doc])%list
    ∧ Doc.export doc = Some Export
    ∧ (is_Some (Export !! "functions")
       ↔ ExportSummaryOnly (Options this) = false
         ∧ SkipFunctions (Options this) = false)
    ∧ (SkipFunctions (Options this) = true → Export !! "functions" = None)
    ∧ (ExportSummaryOnly (Options this) = true →
       Export !! "functions" = None).
Proof.
  intros (Files & Sorted & Hrf & Hsort & ->)%renderRoot_inv.
  eexists _, _. split; [done|].
  split; [apply Doc_export_renderDocument|].
  rewrite renderExport_functions.
  destruct (ExportSummaryOnly (Options this)), (SkipFunctions (Options this));
    simpl; rewrite is_Some_alt; intuition congruence.
Qed.

Lemma renderRoot_functions_key_witness :
  ∃ doc Export,
    OS Sample.exported = (OS (Sample.exporter 0) ++ [doc])%list
    ∧ Doc.export doc = Some Export
    ∧ is_Some (Export !! "functions").
Proof.
  destruct (renderRoot_functions_key (Sample.host Sample.crossed)
              (Sample.exporter 0) ["b.c"; "a.c"] Sample.exported)
    as (doc & Export & HOS & HExport & [_ Hkey] & _).
  - vm_compute. reflexivity.
  - exists doc, Export. split; [exact HOS|]. split; [exact HExport|].
    exact (Hkey (conj eq_refl eq_refl)).
Defined.

(** C3: the document written is exactly the object with [version] "2.0.0",
    [type] "llvm.coverage.json.export" and [data] a one-element array
    holding the export object; the export object has [files] and [totals]
    and at most [functions] besides; for the files ["b.c"; "a.c"] the array
    has "a.c" first and "b.c" second. *)
Theorem renderRoot_document host this SourceFiles this' :
  renderRoot host this SourceFiles = Some this' →
  ∃ Export files,
    OS this'
    = (OS this
       ++ [JObject {[ "version" := JString "2.0.0";
                      "type" := JString "llvm.coverage.json.export";
                      "data" := JArray [JObject Export] ]}])%list
    ∧ Export !! "files" = Some (JArray files)
    ∧ Export !! "totals"
      = Some (JObject (renderSummary
                (prepareFileReports host (Coverage this)
                   (FileCoverageSummary_new "Totals") SourceFiles
                   (Options this)).2))
    ∧ dom Export ⊆@{gset string} {[ "files"; "totals"; "functions" ]}
    ∧ (SourceFiles = ["b.c"; "a.c"] →
       filenameOf <$> files = [Some "a.c"; Some "b.c"]).
Proof.
  intros (Files & Sorted & Hrf & Hsort & ->)%renderRoot_inv.
  eexists _, Sorted. simpl. rewrite renderDocument_eq.
  split; [done|]. split; [apply renderExport_files|].
  split; [apply renderExport_totals|].
  split.
  { rewrite renderExport_eq. simpl.
    destruct (_ || _); rewrite ?dom_insert_L, dom_singleton_L;
      set_unfold; tauto. }
  intros ->.
  destruct (renderFiles_Permutation _ _ _ _ _ _ _ Hrf) as [Hperm Hlen].
  change (N.to_nat (Pool.E ["b.c"; "a.c"])) with 2%nat in *.
  set (Reports := prepareFileReports host _ _ _ _) in *.
  assert (Hlen' : length (take 2 (sequentialFiles (Coverage this)
            ["b.c"; "a.c"] Reports.1 (Options this))) = 2%nat)
    by (by rewrite <-Hperm).
  destruct (Reports.1) as [|FRb [|FRa FRs]]; [done..|].
  simpl in Hperm.
  assert (Hs : std_sort compareFiles Files
    = Some [JObject (renderFile (Coverage this) "a.c" FRa (Options this));
            JObject (renderFile (Coverage this) "b.c" FRb (Options this))]).
  { eapply std_sort_order_independent; [symmetry; exact Hperm| | |].
    - repeat constructor; unfold has_filename;
        by rewrite filenameOf_renderFile.
    - simpl. unfold fname. rewrite !filenameOf_renderFile. simpl.
      apply (bool_decide_unpack _). vm_compute. exact I.
    - simpl.
      by rewrite (compareFiles_filenameOf _ _ "b.c" "a.c")
        by apply filenameOf_renderFile. }
  rewrite Hsort in Hs. injection Hs as ->.
  simpl. by rewrite !filenameOf_renderFile.
Qed.

Lemma renderRoot_document_witness :
  ∃ Export files,
    OS Sample.exported
    = [JObject {[ "version" := JString "2.0.0";
                  "type" := JString "llvm.coverage.json.export";
                  "data" := JArray [JObject Export] ]}]
    ∧ Export !! "files" = Some (JArray files)
    ∧ filenameOf <$> files = [Some "a.c"; Some "b.c"].
Proof.
  destruct (renderRoot_document (Sample.host Sample.crossed)
              (Sample.exporter 0) ["b.c"; "a.c"] Sample.exported)
    as (Export & files & HOS & Hfiles & _ & _ & Hnames).
  - vm_compute. reflexivity.
  - exists Export, files. split; [exact HOS|]. split; [exact Hfiles|].
    exact (Hnames eq_refl).
Defined.

(** ** The empty export *)

Lemma step_init_no_files Coverage FileReports Options NumThreads ev :
  Pool.step Coverage [] FileReports Options NumThreads ev Pool.init = None.
Proof. by destruct ev. Qed.

(** C10: for an empty file list the worker count derived from a zero
    [numThreads] is 1, the pool has no event to run, so no task is ever
    submitted, and the whole document is written, with an empty [files]
    array and [version], [type] and [totals] in place. *)
Theorem renderRoot_empty hw summarize this :
  let host := {| heavyweight_hardware_concurrency := hw;
                 prepareFileReports := summarize;
                 schedule := [] |} in
  let Totals :=
    (summarize (Coverage this) (FileCoverageSummary_new "Totals") []
               (Options this)).2 in
  (NumThreads (Options this) = 0%N →
     workerCount hw (Options this) [] = 1%N)
  ∧ (∀ sched FileReports Files,
       renderFiles hw sched (Coverage this) [] FileReports (Options this)
       = Some Files →
       sched = [] ∧ Files = [])
  ∧ ∃ Export,
      renderRoot host this []
      = Some {| Coverage := Coverage this;
                Options := Options this;
                OS := OS this
                      ++ [JObject
                            {[ "version" := JString "2.0.0";
                               "type" := JString "llvm.coverage.json.export";
                               "data" := JArray [JObject Export] ]}] |}
      ∧ Export !! "files" = Some (JArray [])
      ∧ Export !! "totals" = Some (JObject (renderSummary Totals)).
Proof.
  intros host Totals. split; [|split].
  - intros Hz. unfold workerCount. rewrite Hz. simpl.
    destruct hw; reflexivity.
  - intros sched FileReports Files. unfold renderFiles.
    destruct sched as [|ev sched]; simpl.
    + intros Hrf. by simplify_eq.
    + by rewrite step_init_no_files.
  - exists (renderExport (Coverage this) (Options this) [] Totals).
    split; [|split].
    + unfold renderRoot. subst host Totals. simpl.
      destruct (summarize _ _ _ _) as [FileReports Totals]. simpl.
      by rewrite renderDocument_eq.
    + apply renderExport_files.
    + apply renderExport_totals.
Qed.

(** ** Independence of the schedule and of the worker count *)

Lemma wait_returns_weight SourceFiles s :
  Pool.wait_returns SourceFiles s = true → PoolInv.weight SourceFiles s = 0%nat.
Proof.
  unfold Pool.wait_returns, PoolInv.weight. intros Hret.
  apply andb_prop in Hret as [Hret HA]. apply andb_prop in Hret as [HI HT].
  apply N.eqb_eq in HI. apply bool_decide_eq_true in HT, HA.
  rewrite HI, HT, HA. simpl. lia.
Qed.

(** Every execution of [renderFiles] has four events for each file of the
    loop: each task was submitted, started, rendered and pushed. *)
Lemma renderFiles_events hw sched Coverage SourceFiles FileReports
    Options Files :
  renderFiles hw sched Coverage SourceFiles FileReports Options = Some Files →
  length sched = (4 * N.to_nat (Pool.E SourceFiles))%nat.
Proof.
  unfold renderFiles. intros Hrf.
  destruct (Pool.run _ _ _ _ _ _ _) as [s|] eqn:Hrun; [|done]. simpl in Hrf.
  destruct (Pool.wait_returns SourceFiles s) eqn:Hret; [|done].
  pose proof (run_weight _ _ _ _ _ _ _ _ (init_Inv _ _ _ _) Hrun) as Hw.
  rewrite (wait_returns_weight _ _ Hret) in Hw.
  unfold PoolInv.weight in Hw at 1. simpl in Hw. lia.
Qed.

(** When [renderFiles] returns, the loop is over, the queue is empty and
    no worker is busy. *)
Lemma renderFiles_final hw sched Coverage SourceFiles FileReports
    Options Files :
  renderFiles hw sched Coverage SourceFiles FileReports Options = Some Files →
  ∃ s, Pool.run Coverage SourceFiles FileReports Options
         (workerCount hw Options SourceFiles) sched Pool.init = Some s
       ∧ Pool.Idx s = Pool.E SourceFiles
       ∧ Pool.Tasks s = [] ∧ Pool.Active s = []
       ∧ Pool.FileArray s = Files.
Proof.
  unfold renderFiles. intros Hrf.
  destruct (Pool.run _ _ _ _ _ _ _) as [s|] eqn:Hrun; [|done]. simpl in Hrf.
  destruct (Pool.wait_returns SourceFiles s) eqn:Hret; [|done].
  exists s. simplify_eq. unfold Pool.wait_returns in Hret.
  apply andb_prop in Hret as [Hret HA]. apply andb_prop in Hret as [HI HT].
  apply N.eqb_eq in HI. apply bool_decide_eq_true in HT, HA. done.
Qed.

(** The sorted files of two executions agree, whatever the schedules, the
    hardware concurrency and the configured thread counts. *)
Lemma renderFiles_sorted_unique hw hw' sched sched' n' Coverage SourceFiles
    FileReports Options Files Files' Sorted :
  NoDup SourceFiles →
  renderFiles hw sched Coverage SourceFiles FileReports Options = Some Files →
  renderFiles hw' sched' Coverage SourceFiles FileReports
    (setNumThreads n' Options) = Some Files' →
  std_sort compareFiles Files = Some Sorted →
  std_sort compareFiles Files' = Some Sorted.
Proof.
  intros Hnd Hrf Hrf' Hsort.
  eapply std_sort_order_independent; [| | |exact Hsort].
  - destruct (renderFiles_Permutation _ _ _ _ _ _ _ Hrf) as [-> _].
    destruct (renderFiles_Permutation _ _ _ _ _ _ _ Hrf') as [-> _].
    by rewrite sequentialFiles_setNumThreads.
  - by eapply renderFiles_has_filename.
  - by eapply renderFiles_NoDup.
Qed.

(** C2, as the code has it: for fewer than 2^32 files with distinct names,
    an execution of the pool that lets [renderFiles] return has run every
    task to its end (four events a file), the array returned has one entry
    for each file and rearranges their sequential rendering, its sort is the
    sort of the sequential rendering, and it is the sort of what any other
    schedule, hardware concurrency or configured thread count returns; with
    a summary for every file the sequential schedule is such an execution. *)
Theorem renderFiles_deterministic hw sched Coverage SourceFiles FileReports
    Options Files :
  (Int.size SourceFiles < Int.two32)%N →
  NoDup SourceFiles →
  renderFiles hw sched Coverage SourceFiles FileReports Options = Some Files →
  let Sequential :=
    sequentialFiles Coverage SourceFiles FileReports Options in
  (∃ s, Pool.run Coverage SourceFiles FileReports Options
          (workerCount hw Options SourceFiles) sched Pool.init = Some s
        ∧ N.to_nat (Pool.Idx s) = length SourceFiles
        ∧ Pool.Tasks s = [] ∧ Pool.Active s = []
        ∧ Pool.FileArray s = Files)
  ∧ length sched = (4 * length SourceFiles)%nat
  ∧ length Files = length SourceFiles
  ∧ length Sequential = length SourceFiles
  ∧ Files ≡ₚ Sequential
  ∧ (∃ Sorted,
       std_sort compareFiles Files = Some Sorted
       ∧ std_sort compareFiles Sequential = Some Sorted
       ∧ ∀ hw' sched' n' Files',
           renderFiles hw' sched' Coverage SourceFiles FileReports
             (setNumThreads n' Options) = Some Files' →
           std_sort compareFiles Files' = Some Sorted)
  ∧ (length SourceFiles ≤ length FileReports)%nat
  ∧ ∀ hw' n',
      renderFiles hw' (Pool.sequential (length SourceFiles)) Coverage
        SourceFiles FileReports (setNumThreads n' Options)
      = Some Sequential.
Proof.
  intros Hsize Hnd Hrf Sequential.
  pose proof (E_small _ Hsize) as HE.
  pose proof (renderFiles_events _ _ _ _ _ _ _ Hrf) as Hev.
  destruct (renderFiles_Permutation _ _ _ _ _ _ _ Hrf) as [Hperm Hlen].
  rewrite HE in Hev, Hperm, Hlen.
  assert (Hseq : length Sequential = length SourceFiles).
  { apply Nat.le_antisymm.
    - unfold Sequential, sequentialFiles. rewrite length_zip_with. lia.
    - pose proof (Permutation_length Hperm) as Hl.
      rewrite length_take in Hl. unfold Sequential. lia. }
  assert (Hpaired : (length SourceFiles ≤ length FileReports)%nat).
  { unfold Sequential, sequentialFiles in Hseq.
    rewrite length_zip_with in Hseq. lia. }
  rewrite take_ge in Hperm by (fold Sequential; lia).
  fold Sequential in Hperm.
  split.
  { destruct (renderFiles_final _ _ _ _ _ _ _ Hrf)
      as (s & Hrun & HI & HT & HA & HF).
    exists s. rewrite HI. by repeat split. }
  split; [done|]. split; [done|]. split; [done|]. split; [done|].
  split; [|split; [done|]].
  - pose proof (renderFiles_has_filename _ _ _ _ _ _ _ Hrf) as Hall.
    destruct (std_sort_is_Some Files Hall) as [Sorted Hsort].
    exists Sorted. split; [done|]. split.
    + eapply std_sort_order_independent; [exact Hperm|done| |done].
      by eapply renderFiles_NoDup.
    + intros hw' sched' n' Files' Hrf'.
      exact (renderFiles_sorted_unique _ _ _ _ _ _ _ _ _ _ _ _
               Hnd Hrf Hrf' Hsort).
  - intros hw' n'.
    pose proof (renderFiles_sequential hw' Coverage SourceFiles FileReports
                  (setNumThreads n' Options)) as Hs.
    rewrite HE, sequentialFiles_setNumThreads in Hs.
    fold Sequential in Hs. rewrite take_ge in Hs by lia.
    by apply Hs.
Qed.

Lemma renderFiles_deterministic_witness :
  ∃ Files Sorted,
    renderFiles 8 Sample.crossed Sample.mapping ["b.c"; "a.c"]
      [Sample.small; Sample.small] (Sample.options 0) = Some Files
    ∧ std_sort compareFiles Files = Some Sorted
    ∧ std_sort compareFiles
        (sequentialFiles Sample.mapping ["b.c"; "a.c"]
           [Sample.small; Sample.small] (Sample.options 0)) = Some Sorted
    ∧ length Files = 2%nat.
Proof.
  destruct (renderFiles 8 Sample.crossed Sample.mapping ["b.c"; "a.c"]
              [Sample.small; Sample.small] (Sample.options 0))
    as [Files|] eqn:Hrf; [|by vm_compute in Hrf].
  destruct (renderFiles_deterministic 8 Sample.crossed Sample.mapping
              ["b.c"; "a.c"] [Sample.small; Sample.small] (Sample.options 0)
              Files)
    as (_ & _ & Hlen & _ & _ & (Sorted & Hsort & Hseq & _) & _).
  - reflexivity.
  - apply (bool_decide_unpack _). vm_compute. exact I.
  - exact Hrf.
  - exists Files, Sorted. by repeat split.
Defined.

Lemma sequentialFiles_size Coverage SourceFiles FileReports Options :
  Int.size FileReports = Int.size SourceFiles →
  Int.size (sequentialFiles Coverage SourceFiles FileReports Options)
  = Int.size SourceFiles.
Proof.
  unfold sequentialFiles, Int.size. intros Hlen%(inj N.of_nat).
  rewrite length_zip_with, Hlen. by rewrite Nat.min_id.
Qed.

(** When the 32-bit loop bound is 0 the loop submits nothing and
    [Pool.wait()] returns at once. *)
Lemma renderFiles_no_loop hw Coverage SourceFiles FileReports Options :
  Pool.E SourceFiles = 0%N →
  renderFiles hw [] Coverage SourceFiles FileReports Options = Some [].
Proof.
  intros HE. unfold renderFiles, Pool.wait_returns. simpl. by rewrite HE.
Qed.

(** C2, as stated, fails for 2^32 files: the 32-bit loop bound is 0, so
    [Pool.wait()] returns at once and the array returned is empty, where
    the sequential rendering of the list has 2^32 entries. *)
Lemma renderFiles_manyFiles :
  NoDup Sample.manyFiles
  ∧ Int.size Sample.manyReports = Int.size Sample.manyFiles
  ∧ renderFiles 8 [] Sample.mapping Sample.manyFiles Sample.manyReports
      (Sample.options 0) = Some []
  ∧ Int.size (sequentialFiles Sample.mapping Sample.manyFiles
                Sample.manyReports (Sample.options 0)) = Int.two32.
Proof.
  split; [exact manyFiles_NoDup|].
  split; [exact (eq_trans manyReports_size (eq_sym manyFiles_size))|].
  split; [exact (renderFiles_no_loop _ _ _ _ _ manyFiles_E)|].
  exact (eq_trans
           (sequentialFiles_size _ _ _ _
              (eq_trans manyReports_size (eq_sym manyFiles_size)))
           manyFiles_size).
Qed.

Lemma setNumThreads_id Options :
  setNumThreads (NumThreads Options) Options = Options.
Proof. by destruct Options. Qed.

(** The document does not depend on the host's schedule or concurrency:
    two exports of the same files by the same exporter, with the same
    summarizer, write the same document. *)
Lemma renderRoot_schedule_independent host host' this SourceFiles this1 this2 :
  NoDup SourceFiles →
  prepareFileReports host = prepareFileReports host' →
  renderRoot host this SourceFiles = Some this1 →
  renderRoot host' this SourceFiles = Some this2 →
  this1 = this2.
Proof.
  intros Hnd Hsum (Files & Sorted & Hrf & Hsort & ->)%renderRoot_inv
    (Files' & Sorted' & Hrf' & Hsort' & ->)%renderRoot_inv.
  rewrite <-Hsum in Hrf' |- *.
  rewrite <-(setNumThreads_id (Options this)) in Hrf' at 2.
  pose proof (renderFiles_sorted_unique _ _ _ _ _ _ _ _ _ _ _ _
                Hnd Hrf Hrf' Hsort) as Heq.
  rewrite Hsort' in Heq. by simplify_eq.
Qed.
